(** * transform-literally: a shallow embedding of [index.js]

    The engine builds "specs": functions from an evaluation context to a
    value, tagged with two symbol-keyed properties ([SPEC_FN] and
    [SPEC_PROMISE]).  This file embeds the spec runtime ([makeSpecFn]),
    the autospeccing of literals ([ensureSpec]) and the combinators, and
    states the properties of the written specification over them.

    Modelling conventions.
    - JavaScript values are the inductive [value].  Numbers are the
      integers the engine's own tests use ([Z]); a non-spec function value
      is opaque and identified by its source text.
    - A promise is modelled by its settlement: [VFulfilled v] or
      [VRejected e].  A [then] callback runs at the point where the promise
      chain is built; the microtask queue is not modelled.  This is what
      the host does for a chain hanging off one child, and for several
      children whose evaluation has no side effect; where deferring
      children act on the store, the host runs the callback of one after
      the next child has been started, and the statements about several
      children in promise mode are made for children without side
      effects.
    - A record or an array is its content: the modelled values carry no
      object identity.  What depends on identity (the keys [Map] compares
      by reference) is stated for primitive values only.
    - Evaluation is a state-and-exception monad over a [store] that holds
      the memo tables of the [cache] instances and the variables that user
      functions passed to [call] may read and write.
    - Construction of a spec is a state-and-exception monad of its own
      over the counters that [Symbol()] and [new Map()] draw from. *)

From stdpp Require Import base option list strings gmap pretty.

Open Scope string_scope.
Set Warnings "-register-all".

(** ** Values and errors *)

Inductive error : Type :=
  | TypeError (msg : string)
  | IllegalSpecError (msg : string)
  | UserError (msg : string).

Inductive value : Type :=
  | VUndef
  | VNull
  | VBool (b : bool)
  | VNum (n : Z)
  | VStr (s : string)
  | VArr (items : list value)
  | VObj (props : list (string * value))
  | VFun (src : string)
  | VFulfilled (v : value)
  | VRejected (e : error).

(** The result of a call: a returned value or a raised error. *)
Inductive outcome (A : Type) : Type :=
  | Ret (a : A)
  | Throw (e : error).
Arguments Ret {A} a.
Arguments Throw {A} e.

(** JavaScript truthiness ([if (v)], [!v]). *)
Definition truthy (v : value) : bool :=
  match v with
  | VUndef | VNull => false
  | VBool b => b
  | VNum n => negb (n =? 0)%Z
  | VStr s => negb (String.eqb s "")
  | _ => true
  end.

Definition is_promise (v : value) : bool :=
  match v with
  | VFulfilled _ | VRejected _ => true
  | _ => false
  end.

(** [Promise.resolve(v)]: a promise is returned as it is, anything else
    becomes a promise fulfilled with it. *)
Definition promise_resolve (v : value) : value :=
  if is_promise v then v else VFulfilled v.

(** What awaiting [Promise.resolve(v)] gives: the value a promise is
    fulfilled with, the failure it is rejected with, or [v] itself. *)
Definition await (v : value) : outcome value :=
  match v with
  | VFulfilled w => Ret w
  | VRejected e => Throw e
  | _ => Ret v
  end.

(** [Promise.all(vs)] on settled inputs: the values in argument order, or
    the failure of the first rejected element.  With several rejected
    elements the host rejects with the one that settles first; the
    statements below only say that the failure is one of them. *)
Fixpoint await_all (vs : list value) : outcome (list value) :=
  match vs with
  | [] => Ret []
  | v :: rest =>
      match v with
      | VRejected e => Throw e
      | _ =>
          match await_all rest with
          | Throw e => Throw e
          | Ret ws =>
              Ret (match v with VFulfilled w => w | _ => v end :: ws)
          end
      end
  end.

(** ** The evaluation monad *)

(** A context maps the symbols minted by the scoping combinators to the
    values bound under them. *)
Definition token := nat.
Definition context := gmap token value.

(** [ctx[sym]]. *)
Definition ctx_get (ctx : context) (t : token) : value :=
  default VUndef (ctx !! t).

(** [Object.assign({}, ctx, {[sym]: v})]. *)
Definition ctx_extend (ctx : context) (t : token) (v : value) : context :=
  <[t := v]> ctx.

Record store : Type := mkStore {
  memos : gmap nat (list (value * value));
  vars : gmap string value
}.

(** State and exceptions over a state type [S]: evaluation runs over the
    [store], construction over the [cstate] below. *)
Definition SE (S A : Type) : Type := S → outcome A * S.

Definition retM {S A} (a : A) : SE S A := λ st, (Ret a, st).
Definition throwM {S A} (e : error) : SE S A := λ st, (Throw e, st).
Definition bindM {S A B} (m : SE S A) (k : A → SE S B) : SE S B :=
  λ st, match m st with
        | (Ret a, st') => k a st'
        | (Throw e, st') => (Throw e, st')
        end.

Notation "'let*' x ':=' m 'in' k" := (bindM m (λ x, k))
  (at level 10, x name, m at level 100, k at level 200, only parsing).

Definition M (A : Type) : Type := SE store A.

(** The callback of [promise.then(cb)] on a promise fulfilled with the
    callback's argument: the new promise adopts what the callback returns
    and is rejected with what it raises.  The callback runs here, where
    the chain is built; the host runs it once the code that built the
    chain has returned, which differs only when that code goes on to act
    on the store. *)
Definition then_callback (cb : M value) : M value :=
  λ st, match cb st with
        | (Ret v, st') => (Ret (promise_resolve v), st')
        | (Throw e, st') => (Ret (VRejected e), st')
        end.

Fixpoint mapM {A B} (f : A → M B) (l : list A) : M (list B) :=
  match l with
  | [] => retM []
  | a :: rest =>
      let* b := f a in
      let* bs := mapM f rest in
      retM (b :: bs)
  end.

(** ** Spec Runtime *)

(** A spec: the function itself ([run]) and its [SPEC_PROMISE] property
    ([mayDefer]).  [SPEC_FN] is what makes a value a [spec] at all. *)
Record spec : Type := mkSpec {
  run : context → M value;
  mayDefer : bool
}.

Definition body := context → list value → M value.
Definition evaluator := context → list spec → M (list value).

(** The first argument of [makeSpecFn]: a function, or a record
    [{fn, evalFn, hasPromises}]. *)
Inductive specBody : Type :=
  | BodyFn (fn : body)
  | BodyRec (fn : body) (evalFn : option evaluator) (hasPromises : bool).

Definition defaultEvalFn : evaluator :=
  λ ctx specs, mapM (λ s, run s ctx) specs.

Definition makeSpecFn (b : specBody) (specs : list spec) : spec :=
  let '(fn, evalFn, hasPromises0) :=
    match b with
    | BodyFn fn => (fn, defaultEvalFn, false)
    | BodyRec fn ev hp => (fn, default defaultEvalFn ev, hp)
    end in
  let hasPromises := hasPromises0 || existsb mayDefer specs in
  if hasPromises then
    {| run := λ ctx,
         let* vs := evalFn ctx specs in
         match await_all vs with
         | Throw e => retM (VRejected e)
         | Ret args => then_callback (fn ctx args)
         end;
       mayDefer := true |}
  else
    {| run := λ ctx, let* vs := evalFn ctx specs in fn ctx vs;
       mayDefer := false |}.

Definition constant (v : value) : spec :=
  makeSpecFn (BodyFn (λ _ _, retM v)) [].

(** ** Autospec Lifting *)

(** What a caller may hand to a combinator as a "spec-like" argument: a
    spec, an array or a record whose members are spec-likes again, or a
    plain value. *)
Inductive raw : Type :=
  | RSpec (s : spec)
  | RArr (items : list raw)
  | RObj (props : list (string * raw))
  | RVal (v : value).

(** [obj[name] = v] on a record built by the engine: an existing key keeps
    its place, a new key is appended.  Records list their own enumerable
    properties in enumeration order, each key once; keys are ordinary
    property names (the accessor [__proto__] is not one). *)
Fixpoint obj_set (name : string) (v : value) (o : list (string * value))
  : list (string * value) :=
  match o with
  | [] => [(name, v)]
  | (k, w) :: rest =>
      if String.eqb k name then (k, v) :: rest
      else (k, w) :: obj_set name v rest
  end.

(** The loop of the record body:
    [for (i ...) if (attrs[i] !== undefined) obj[names[i]] = attrs[i]]. *)
Definition is_undefined (v : value) : bool :=
  match v with VUndef => true | _ => false end.

Fixpoint assign_defined (names : list string) (attrs : list value)
    (obj : list (string * value)) : list (string * value) :=
  match names with
  | [] => obj
  | n :: names' =>
      let a := default VUndef (head attrs) in
      assign_defined names' (tail attrs)
        (if is_undefined a then obj else obj_set n a obj)
  end.

Definition arrayBody : specBody :=
  BodyFn (λ _ items, retM (VArr items)).

Definition recordBody (names : list string) : specBody :=
  BodyFn (λ _ attrs, retM (VObj (assign_defined names attrs []))).

(** [ensureSpec] on a value that holds no spec.  [typeof] is ['object']
    for records, for [null] and for promises: the last two have no
    enumerable property of their own and are lifted like the empty
    record. *)
Fixpoint liftValue (v : value) : spec :=
  match v with
  | VArr items =>
      makeSpecFn arrayBody
        ((fix lift (l : list value) : list spec :=
            match l with
            | [] => []
            | w :: l' => liftValue w :: lift l'
            end) items)
  | VObj props =>
      makeSpecFn (recordBody (map fst props))
        ((fix lift (l : list (string * value)) : list spec :=
            match l with
            | [] => []
            | (_, w) :: l' => liftValue w :: lift l'
            end) props)
  | VNull | VFulfilled _ | VRejected _ => makeSpecFn (recordBody []) []
  | VUndef | VBool _ | VNum _ | VStr _ | VFun _ => constant v
  end.

Fixpoint ensureSpec (x : raw) : spec :=
  match x with
  | RSpec s => s
  | RArr items =>
      makeSpecFn arrayBody
        ((fix lift (l : list raw) : list spec :=
            match l with
            | [] => []
            | r :: l' => ensureSpec r :: lift l'
            end) items)
  | RObj props =>
      makeSpecFn (recordBody (map fst props))
        ((fix lift (l : list (string * raw)) : list spec :=
            match l with
            | [] => []
            | (_, r) :: l' => ensureSpec r :: lift l'
            end) props)
  | RVal v => liftValue v
  end.

(** ** Construction *)

(** The state construction draws from: the next [Symbol()] and the next
    [new Map()]. *)
Record cstate : Type := mkCState {
  nextSymbol : nat;
  nextMap : nat
}.

Definition C (A : Type) : Type := SE cstate A.

Definition freshSymbol : C token :=
  λ cs, (Ret (nextSymbol cs),
         {| nextSymbol := S (nextSymbol cs); nextMap := nextMap cs |}).

Definition newMap : C nat :=
  λ cs, (Ret (nextMap cs),
         {| nextSymbol := nextSymbol cs; nextMap := S (nextMap cs) |}).

(** An argument in a function position: a function, or anything else. *)
Inductive fnArg (F : Type) : Type :=
  | Callable (f : F)
  | NotCallable.
Arguments Callable {F} f.
Arguments NotCallable {F}.

Definition requireFunction {F} (fn : fnArg F) : C unit :=
  match fn with
  | Callable _ => retM ()
  | NotCallable => throwM (IllegalSpecError "argument must be function")
  end.

(** The call [fn(...)] itself: calling what is not a function is a
    [TypeError] of the host (whose message also names the expression
    called). *)
Definition applyFn {F} (fn : fnArg F) : C F :=
  match fn with
  | Callable f => retM f
  | NotCallable => throwM (TypeError "is not a function")
  end.

(** A callback that receives a reference spec and returns a spec-like. *)
Definition specFn := spec → C raw.

(** A function handed to [call]: it sees the evaluated arguments and the
    variables of its closure. *)
Definition userFn := list value → SE (gmap string value) value.

Definition liftUser (f : SE (gmap string value) value) : M value :=
  λ st, match f (vars st) with
        | (o, vs) => (o, {| memos := memos st; vars := vs |})
        end.

(** [ctx => ctx[sym]] as a spec. *)
Definition refSpec (sym : token) : spec :=
  makeSpecFn (BodyFn (λ ctx _, retM (ctx_get ctx sym))) [].

(** The first evaluated child, [undefined] when there is none. *)
Definition arg0 (vs : list value) : value := default VUndef (head vs).

Definition js_typeof (v : value) : string :=
  match v with
  | VUndef => "undefined"
  | VBool _ => "boolean"
  | VNum _ => "number"
  | VStr _ => "string"
  | VFun _ => "function"
  | VNull | VArr _ | VObj _ | VFulfilled _ | VRejected _ => "object"
  end.

(** [Promise.all(result)] as a value. *)
Definition promise_all (vs : list value) : value :=
  match await_all vs with
  | Ret ws => VFulfilled (VArr ws)
  | Throw e => VRejected e
  end.

Definition mapBody (currentItem : token) (itemSpec : spec) : body :=
  λ ctx vs,
    match arg0 vs with
    | VArr array =>
        let* result :=
          mapM (λ item, run itemSpec (ctx_extend ctx currentItem item)) array in
        if mayDefer itemSpec then retM (promise_all result)
        else retM (VArr result)
    | other =>
        throwM (TypeError
          ("Argument did not evaluate to an array: " ++ js_typeof other))
    end.

Definition map_ (arraySpec : raw) (itemSpecFn : fnArg specFn) : C spec :=
  let arraySpec := ensureSpec arraySpec in
  let* _ := requireFunction itemSpecFn in
  let* currentItem := freshSymbol in
  let* f := applyFn itemSpecFn in
  let* r := f (refSpec currentItem) in
  let itemSpec := ensureSpec r in
  retM (makeSpecFn (BodyRec (mapBody currentItem itemSpec) None
                      (mayDefer itemSpec)) [arraySpec]).

Definition resolve (promiseSpec : raw) : spec :=
  makeSpecFn (BodyRec (λ _ vs, retM (promise_resolve (arg0 vs))) None true)
    [ensureSpec promiseSpec].

(** [(ctx, args) => fn(...args)]; the one child is the lifted argument
    array, so [args] is an array.  Spreading anything else is reported as
    the host's [TypeError]. *)
Definition callBody (fn : userFn) : body :=
  λ _ vs,
    match arg0 vs with
    | VArr args => liftUser (fn args)
    | _ => throwM (TypeError "args is not iterable")
    end.

Definition call (fn : fnArg userFn) (argumentSpec : list raw) : C spec :=
  let* _ := requireFunction fn in
  let* f := applyFn fn in
  retM (makeSpecFn (BodyFn (callBody f)) [ensureSpec (RArr argumentSpec)]).

Definition conditional (valueSpec trueSpec falseSpec : raw) : spec :=
  let valueSpec := ensureSpec valueSpec in
  let trueSpec := ensureSpec trueSpec in
  let falseSpec := ensureSpec falseSpec in
  makeSpecFn
    (BodyRec (λ ctx vs, if truthy (arg0 vs) then run trueSpec ctx
                        else run falseSpec ctx)
       None (mayDefer trueSpec || mayDefer falseSpec))
    [valueSpec].

Definition bind (valueSpec : raw) (fn : fnArg specFn) : C spec :=
  let valueSpec := ensureSpec valueSpec in
  let* currentValue := freshSymbol in
  let* f := applyFn fn in
  let* r := f (refSpec currentValue) in
  let spec := ensureSpec r in
  retM (makeSpecFn
          (BodyRec (λ ctx vs, run spec (ctx_extend ctx currentValue (arg0 vs)))
             None (mayDefer spec))
          [valueSpec]).

(** [input] returns a plain function of the runtime input, not a spec.
    The context of a call is the object [{[givenInput]: input}]. *)
Definition input (fn : fnArg specFn) : C (value → M value) :=
  let* givenInput := freshSymbol in
  let* f := applyFn fn in
  let* r := f (refSpec givenInput) in
  let spec := ensureSpec r in
  retM (λ input, run spec (ctx_extend ∅ givenInput input)).

(** ** Property keys and the prototype of plain objects *)

(** [ToString] on the modelled values; [obj[v]] looks up [to_string v].
    A number prints in decimal, as JavaScript prints the integers it
    represents exactly ([safe_key] below); records and promises print as
    the default [toString] prints them. *)
Fixpoint to_string (v : value) : string :=
  match v with
  | VUndef => "undefined"
  | VNull => "null"
  | VBool b => if b then "true" else "false"
  | VNum n => pretty n
  | VStr s => s
  | VArr items =>
      (fix join (l : list value) : string :=
         match l with
         | [] => ""
         | x :: l' =>
             match x with
             | VUndef | VNull => ""
             | _ => to_string x
             end ++
             match l' with
             | [] => ""
             | _ => "," ++ join l'
             end
         end) items
  | VObj _ => "[object Object]"
  | VFun src => src
  | VFulfilled _ | VRejected _ => "[object Promise]"
  end.

(** Own-property lookup in a record, first match. *)
Fixpoint own_lookup {A} (name : string) (o : list (string * A)) : option A :=
  match o with
  | [] => None
  | (k, a) :: rest => if String.eqb k name then Some a else own_lookup name rest
  end.

(** The names every plain object inherits from [Object.prototype]. *)
Definition object_prototype_names : list string :=
  [ "constructor"; "toString"; "toLocaleString"; "valueOf";
    "hasOwnProperty"; "isPrototypeOf"; "propertyIsEnumerable";
    "__proto__"; "__defineGetter__"; "__defineSetter__";
    "__lookupGetter__"; "__lookupSetter__" ].

Definition inherited (name : string) : bool :=
  existsb (String.eqb name) object_prototype_names.

(** What [caseSpecs[key]] finds and what [caseSpec(ctx)] then does: an
    own entry that is a spec is run; an own entry that is falsy counts as
    no entry; any other own entry is called though it is not a spec
    function ([SlotNotCallable]: the host's [TypeError]; a function value
    that is not a spec would be called instead, which the model does not
    follow: no such entry is left once [cases] has lifted the map, see
    [casesLoop_entries]); otherwise a member inherited from
    [Object.prototype], or nothing. *)
Inductive slot : Type :=
  | SlotSpec (s : spec)
  | SlotNotCallable
  | SlotInherited (name : string)
  | SlotMissing.

Definition entry_slot (r : raw) : slot :=
  match r with
  | RSpec s => SlotSpec s
  | RVal v => if truthy v then SlotNotCallable else SlotMissing
  | RArr _ | RObj _ => SlotNotCallable
  end.

Definition lookup_case (caseSpecs : list (string * raw)) (key : value) : slot :=
  let name := to_string key in
  match own_lookup name caseSpecs with
  | Some r => entry_slot r
  | None => if inherited name then SlotInherited name else SlotMissing
  end.

(** [member(ctx)] for an inherited member, called as a plain function
    (its receiver is [undefined]) with the context object as argument.
    [__proto__] is the prototype object, which is not callable;
    [toString] answers for its receiver; [constructor] is [Object], which
    returns its object argument (the context, whose keys are all symbols:
    a record without string keys); the others convert their receiver to
    an object first, which [undefined] does not allow.  The context is an
    object here: a spec called without any context is modelled as called
    with the empty one. *)
Definition call_inherited (name : string) : outcome value :=
  if String.eqb name "__proto__" then
    Throw (TypeError "caseSpec is not a function")
  else if String.eqb name "toString" then Ret (VStr "[object Undefined]")
  else if String.eqb name "constructor" then Ret (VObj [])
  else Throw (TypeError "Cannot convert undefined or null to object").

Definition run_slot (sl : slot) (ctx : context) : M value :=
  match sl with
  | SlotSpec s => run s ctx
  | SlotNotCallable => throwM (TypeError "caseSpec is not a function")
  | SlotInherited name => λ st, (call_inherited name, st)
  | SlotMissing => retM VUndef
  end.

(** ** cases *)

(** [caseSpecs[caseName]] on the caller's map of spec-likes. *)
Definition raw_get (o : list (string * raw)) (name : string) : raw :=
  default (RVal VUndef) (own_lookup name o).

(** [caseSpecs[caseName] = caseSpec]: an existing key keeps its place, a
    new key is appended. *)
Fixpoint raw_set (name : string) (r : raw) (o : list (string * raw))
  : list (string * raw) :=
  match o with
  | [] => [(name, r)]
  | (k, x) :: rest =>
      if String.eqb k name then (k, r) :: rest
      else (k, x) :: raw_set name r rest
  end.

(** The loop [for (let caseName in caseSpecs)] over the names the map has
    when the loop starts: each step reads the entry, lifts it, writes the
    lifted spec back into the caller's map and folds its flag into
    [hasPromises]. *)
Fixpoint casesLoop (names : list string) (caseSpecs : list (string * raw))
    (hasPromises : bool) : list (string * raw) * bool :=
  match names with
  | [] => (caseSpecs, hasPromises)
  | caseName :: names' =>
      let caseSpec := ensureSpec (raw_get caseSpecs caseName) in
      casesLoop names' (raw_set caseName (RSpec caseSpec) caseSpecs)
        (hasPromises || mayDefer caseSpec)
  end.

(** What one step of the loop leaves under a key: the lifted spec of the
    entry. *)
Definition liftEntry (p : string * raw) : string * raw :=
  (p.1, RSpec (ensureSpec p.2)).

(** The function [fn] that [cases] returns, as a function of what the
    map [caseSpecs] holds when [fn] is called: [fn] reads the map at each
    evaluation. *)
Definition casesFn (selector : spec) (hasPromises : bool)
    (caseSpecs : list (string * raw)) : spec :=
  if negb hasPromises then
    {| run := λ ctx,
         let* caseValue := run selector ctx in
         run_slot (lookup_case caseSpecs caseValue) ctx;
       mayDefer := false |}
  else
    {| run := λ ctx,
         let* v := run selector ctx in
         match await v with
         | Throw e => retM (VRejected e)
         | Ret caseValue =>
             then_callback (run_slot (lookup_case caseSpecs caseValue) ctx)
         end;
       mayDefer := true |}.

(** [cases] returns the spec and, next to it, what the caller's
    [caseSpecs] object holds once [cases] has returned; the spec is [fn]
    over that content, that is, for a caller who leaves the map alone
    afterwards. *)
Definition cases (spec0 : raw) (caseSpecs : list (string * raw))
  : spec * list (string * raw) :=
  let spec := ensureSpec spec0 in
  let '(caseSpecs', hasPromises) :=
    casesLoop (map fst caseSpecs) caseSpecs (mayDefer spec) in
  (casesFn spec hasPromises caseSpecs', caseSpecs').

(** ** union *)

(** The own enumerable string-keyed properties [Object.assign] copies
    from a source: those of a record, the indices of an array, the
    characters of a string under their indices; the other modelled values
    have none. *)
Definition enumerable_props (v : value) : list (string * value) :=
  match v with
  | VObj props => props
  | VArr items => imap (λ i x, (pretty i, x)) items
  | VStr s =>
      imap (λ i c, (pretty i, VStr (String c EmptyString)))
        (String.list_ascii_of_string s)
  | _ => []
  end.

Definition object_assign (target : list (string * value)) (sources : list value)
  : list (string * value) :=
  fold_left
    (λ o src, fold_left (λ o' p, obj_set p.1 p.2 o') (enumerable_props src) o)
    sources target.

Definition union (specs : list raw) : spec :=
  makeSpecFn (BodyFn (λ _ objs, retM (VObj (object_assign [] objs))))
    (map ensureSpec specs).

(** ** object and cache *)

(** The host operations the two combinators rely on, taken as parameters:
    [property in obj], [obj[property]], and the key equality of [Map]. *)
Record host : Type := mkHost {
  hasProperty : value → value → outcome bool;
  getProperty : value → value → outcome value;
  sameValueZero : value → value → bool
}.

(** A [Map] in insertion order. *)
Definition jsMap := list (value * value).

Section Host.
Variable H : host.

Definition map_has (k : value) (m : jsMap) : bool :=
  existsb (λ p, sameValueZero H p.1 k) m.

Definition map_get (k : value) (m : jsMap) : value :=
  match find (λ p, sameValueZero H p.1 k) m with
  | Some p => p.2
  | None => VUndef
  end.

Fixpoint map_set (k v : value) (m : jsMap) : jsMap :=
  match m with
  | [] => [(k, v)]
  | p :: rest =>
      if sameValueZero H p.1 k then (p.1, v) :: rest
      else p :: map_set k v rest
  end.

(** The property accessor [object] hands to its result builder. *)
Definition propAccessor (currentObject : token)
    (propertySpec : raw) (required : bool) : spec :=
  let propertySpec := ensureSpec propertySpec in
  makeSpecFn
    (BodyFn (λ ctx vs,
       let property := arg0 vs in
       let obj := ctx_get ctx currentObject in
       let* _ :=
         (if required then
            λ st, match hasProperty H property obj with
                  | Ret true => (Ret (), st)
                  | Ret false =>
                      (Throw (TypeError ("Required property missing: "
                                         ++ to_string property)), st)
                  | Throw e => (Throw e, st)
                  end
          else retM ()) : M unit in
       λ st, (getProperty H (ctx_get ctx currentObject) property, st)))
    [propertySpec].

Definition accessorFn := (raw → bool → spec) → C raw.

Definition objectBody (currentObject : token) (resultSpec : spec) : body :=
  λ ctx vs,
    let obj := arg0 vs in
    if negb (truthy obj) then retM VUndef
    else run resultSpec (ctx_extend ctx currentObject obj).

Definition object (objectSpec : raw) (resultSpecFn : fnArg accessorFn)
  : C spec :=
  let objectSpec := ensureSpec objectSpec in
  let* currentObject := freshSymbol in
  let* f := applyFn resultSpecFn in
  let* r := f (propAccessor currentObject) in
  let resultSpec := ensureSpec r in
  retM (makeSpecFn
          (BodyRec (objectBody currentObject resultSpec) None
             (mayDefer resultSpec))
          [objectSpec]).

(** The memo table of the cache instance [id]. *)
Definition memo_of (id : nat) (st : store) : jsMap :=
  default [] (memos st !! id).

Definition memo_put (id : nat) (m : jsMap) (st : store) : store :=
  {| memos := <[id := m]> (memos st); vars := vars st |}.

Definition cacheBody (id : nat) (currentKey : token) (valueSpec : spec)
  : body :=
  λ ctx vs,
    let keyValue := arg0 vs in
    let* _ :=
      (λ st,
         if negb (map_has keyValue (memo_of id st)) then
           match run valueSpec (ctx_extend ctx currentKey keyValue) st with
           | (Ret r, st') =>
               (Ret (), memo_put id (map_set keyValue r (memo_of id st')) st')
           | (Throw e, st') => (Throw e, st')
           end
         else (Ret (), st)) : M unit in
    λ st, (Ret (map_get keyValue (memo_of id st)), st).

Definition cache (keySpec : raw) (valueSpecFn : fnArg specFn) : C spec :=
  let keySpec := ensureSpec keySpec in
  let* currentKey := freshSymbol in
  let* f := applyFn valueSpecFn in
  let* r := f (refSpec currentKey) in
  let valueSpec := ensureSpec r in
  let* id := newMap in
  retM (makeSpecFn
          (BodyRec (cacheBody id currentKey valueSpec) None
             (mayDefer valueSpec))
          [keySpec]).
End Host.

(** ** A host for plain records *)

Definition error_eqb (e1 e2 : error) : bool :=
  match e1, e2 with
  | TypeError a, TypeError b
  | IllegalSpecError a, IllegalSpecError b
  | UserError a, UserError b => String.eqb a b
  | _, _ => false
  end.

Fixpoint value_eqb (v1 v2 : value) : bool :=
  match v1, v2 with
  | VUndef, VUndef | VNull, VNull => true
  | VBool a, VBool b => Bool.eqb a b
  | VNum a, VNum b => (a =? b)%Z
  | VStr a, VStr b | VFun a, VFun b => String.eqb a b
  | VArr l1, VArr l2 =>
      (fix go (l1 l2 : list value) : bool :=
         match l1, l2 with
         | [], [] => true
         | x :: l1', y :: l2' => value_eqb x y && go l1' l2'
         | _, _ => false
         end) l1 l2
  | VObj p1, VObj p2 =>
      (fix go (p1 p2 : list (string * value)) : bool :=
         match p1, p2 with
         | [], [] => true
         | (k1, x) :: p1', (k2, y) :: p2' =>
             String.eqb k1 k2 && value_eqb x y && go p1' p2'
         | _, _ => false
         end) p1 p2
  | VFulfilled a, VFulfilled b => value_eqb a b
  | VRejected a, VRejected b => error_eqb a b
  | _, _ => false
  end.

(** Property access on records: own properties first, then the members
    of [Object.prototype].  [undefined] and [null] have no properties at
    all; the other receivers are outside what this host models. *)
Definition record_has (property obj : value) : outcome bool :=
  match obj with
  | VObj props =>
      let name := to_string property in
      Ret (bool_decide (is_Some (own_lookup name props)) || inherited name)
  | VUndef | VNull | VBool _ | VNum _ | VStr _ =>
      Throw (TypeError "Cannot use 'in' operator")
  | _ => Throw (UserError "receiver not modelled")
  end.

Definition record_get (obj property : value) : outcome value :=
  match obj with
  | VObj props =>
      let name := to_string property in
      match own_lookup name props with
      | Some v => Ret v
      | None =>
          if String.eqb name "__proto__" then Ret (VObj [])
          else if inherited name then
            Ret (VFun ("function " ++ name ++ "() { [native code] }"))
          else Ret VUndef
      end
  | VUndef | VNull => Throw (TypeError "Cannot read properties")
  | _ => Throw (UserError "receiver not modelled")
  end.

(** Keys are compared by structure.  On primitive keys this is the
    equality [Map] uses; on arrays and records, which [Map] compares by
    reference, it takes two keys of equal structure for one, so this host
    stands for the native equality on primitive keys only. *)
Definition recordHost : host :=
  {| hasProperty := record_has;
     getProperty := record_get;
     sameValueZero := value_eqb |}.

Definition cs0 : cstate := {| nextSymbol := 0; nextMap := 0 |}.
Definition st0 : store := {| memos := ∅; vars := ∅ |}.

(** Build a spec from scratch and evaluate it once in the empty context
    and store. *)
Definition evalFresh (c : C spec) : outcome value :=
  match c cs0 with
  | (Ret s, _) => (run s ∅ st0).1
  | (Throw e, _) => Throw e
  end.

Definition idFn : fnArg specFn := Callable (λ ref, retM (RSpec ref)).

(** A literal the lifting reproduces: no [null] and no promise anywhere,
    records with each key once and no key whose value is [undefined]. *)
Fixpoint liftable (v : value) : bool :=
  match v with
  | VUndef | VBool _ | VNum _ | VStr _ | VFun _ => true
  | VNull | VFulfilled _ | VRejected _ => false
  | VArr items =>
      (fix all (l : list value) : bool :=
         match l with
         | [] => true
         | w :: l' => liftable w && all l'
         end) items
  | VObj props =>
      bool_decide (NoDup (map fst props)) &&
      (fix all (l : list (string * value)) : bool :=
         match l with
         | [] => true
         | (_, w) :: l' => negb (is_undefined w) && liftable w && all l'
         end) props
  end.


(** A user function that counts its invocations in the variable [calls]
    and returns the count: [() => ++calls]. *)
Definition countCalls : userFn :=
  λ _ vs,
    let n := match vs !! "calls" with Some (VNum n) => n | _ => 0%Z end in
    (Ret (VNum (n + 1)), <["calls" := VNum (n + 1)]> vs).


(** Evaluate a spec twice in a row in the empty context, the second time
    from the store the first evaluation left. *)
Definition evalTwice (s : spec) (st : store)
  : outcome value * outcome value * store :=
  let '(o1, st1) := run s ∅ st in
  let '(o2, st2) := run s ∅ st1 in
  (o1, o2, st2).

(** The three parts [makeSpecFn] reads off its first argument. *)
Definition bodyOverride (b : specBody) : bool :=
  match b with BodyFn _ => false | BodyRec _ _ hp => hp end.

Definition bodyOf (b : specBody) : body :=
  match b with BodyFn fn | BodyRec fn _ _ => fn end.

Definition evalFnOf (b : specBody) : evaluator :=
  match b with
  | BodyFn _ => defaultEvalFn
  | BodyRec _ ev _ => default defaultEvalFn ev
  end.

(** What a spec with the promise flag does with its awaited children. *)
Definition deferredStep (fn : body) (ctx : context) (vs : list value)
  : M value :=
  match await_all vs with
  | Throw e => retM (VRejected e)
  | Ret args => then_callback (fn ctx args)
  end.

(** The values [Map] compares by value: [undefined], [null], booleans,
    numbers and strings.  Arrays, records, functions and promises are
    compared by reference, which the modelled values do not carry. *)
Definition primitive (v : value) : bool :=
  match v with
  | VUndef | VNull | VBool _ | VNum _ | VStr _ => true
  | _ => false
  end.

(** The selector values whose property name [to_string] gives exactly:
    [undefined], [null], booleans, strings, and the integers up to
    [2^53 - 1] in absolute value. *)
Definition safe_key (v : value) : bool :=
  match v with
  | VUndef | VNull | VBool _ | VStr _ => true
  | VNum n => (Z.abs n <=? 9007199254740991)%Z
  | _ => false
  end.

(** The pairs of a name and its attribute whose attribute is not
    [undefined], in order: what the record body keeps. *)
Definition defined_pairs (names : list string) (attrs : list value)
  : list (string * value) :=
  filter (λ p, is_undefined p.2 = false) (zip names attrs).

(** ** Induction on values *)

Section ValueInd.
Variable P : value → Prop.
Hypothesis Pundef : P VUndef.
Hypothesis Pnull : P VNull.
Hypothesis Pbool : ∀ b, P (VBool b).
Hypothesis Pnum : ∀ n, P (VNum n).
Hypothesis Pstr : ∀ s, P (VStr s).
Hypothesis Parr : ∀ items, Forall P items → P (VArr items).
Hypothesis Pobj : ∀ props, Forall (λ p, P p.2) props → P (VObj props).
Hypothesis Pfun : ∀ src, P (VFun src).
Hypothesis Pful : ∀ v, P v → P (VFulfilled v).
Hypothesis Prej : ∀ e, P (VRejected e).

Fixpoint value_nested_ind (v : value) : P v :=
  match v with
  | VUndef => Pundef
  | VNull => Pnull
  | VBool b => Pbool b
  | VNum n => Pnum n
  | VStr s => Pstr s
  | VArr items =>
      Parr items
        ((fix go (l : list value) : Forall P l :=
            match l with
            | [] => Forall_nil_2 P
            | w :: l' => Forall_cons_2 P w l' (value_nested_ind w) (go l')
            end) items)
  | VObj props =>
      Pobj props
        ((fix go (l : list (string * value)) : Forall (λ p, P p.2) l :=
            match l with
            | [] => Forall_nil_2 _
            | p :: l' =>
                Forall_cons_2 (λ p, P p.2) p l' (value_nested_ind p.2) (go l')
            end) props)
  | VFun src => Pfun src
  | VFulfilled w => Pful w (value_nested_ind w)
  | VRejected e => Prej e
  end.
End ValueInd.

(** * Properties *)

Open Scope list_scope.

(** ** The engine's own tests *)

Example test_array_constants :
  (run (ensureSpec (RVal (VArr [VNum 1; VNum 2]))) ∅ st0).1
  = Ret (VArr [VNum 1; VNum 2]).
Proof. reflexivity. Qed.

Example test_skip_undefined_keys :
  (run (ensureSpec (RObj [("a", RSpec (constant VUndef))])) ∅ st0).1
  = Ret (VObj []).
Proof. reflexivity. Qed.

Example test_map_identity :
  evalFresh (map_ (RVal (VArr [VNum 1; VNum 2])) idFn)
  = Ret (VArr [VNum 1; VNum 2]).
Proof. vm_compute. reflexivity. Qed.

Example test_map_not_an_array :
  evalFresh (map_ (RSpec (constant (VStr "not-an-array"))) idFn)
  = Throw (TypeError "Argument did not evaluate to an array: string").
Proof. vm_compute. reflexivity. Qed.

Example test_map_promise_item :
  evalFresh (map_ (RVal (VArr [VNum 1; VNum 2]))
               (Callable (λ item, retM (RSpec (resolve (RSpec item))))))
  = Ret (VFulfilled (VArr [VNum 1; VNum 2])).
Proof. vm_compute. reflexivity. Qed.

Example test_cases_pick :
  (run (cases (RSpec (constant (VStr "b")))
          [("a", RSpec (constant (VNum 1))); ("b", RSpec (constant (VNum 2)))]).1
     ∅ st0).1
  = Ret (VNum 2).
Proof. vm_compute. reflexivity. Qed.

Example test_cases_promise :
  (run (cases (RVal (VStr "b"))
          [("a", RVal (VNum 1)); ("b", RSpec (resolve (RVal (VNum 2))))]).1
     ∅ st0).1
  = Ret (VFulfilled (VNum 2)).
Proof. vm_compute. reflexivity. Qed.

Example test_object_prop :
  evalFresh (object recordHost
               (RSpec (constant (VObj [("a", VNum 1); ("b", VNum 2)])))
               (Callable (λ prop, retM (RSpec (prop (RVal (VStr "a")) false)))))
  = Ret (VNum 1).
Proof. vm_compute. reflexivity. Qed.

Example test_bind_complex :
  evalFresh (bind (RSpec (constant (VNum 1)))
               (Callable (λ val, retM (RObj [("a", RSpec val)]))))
  = Ret (VObj [("a", VNum 1)]).
Proof. vm_compute. reflexivity. Qed.

Example test_call_simple :
  evalFresh (call (Callable (λ args vs, (Ret (arg0 args), vs))) [RVal (VNum 1)])
  = Ret (VNum 1).
Proof. vm_compute. reflexivity. Qed.

Example test_call_promise_argument :
  evalFresh (call (Callable (λ args vs, (Ret (arg0 args), vs)))
               [RSpec (resolve (RVal (VNum 1)))])
  = Ret (VFulfilled (VNum 1)).
Proof. vm_compute. reflexivity. Qed.

Example test_union :
  (run (union [RObj [("a", RVal (VNum 1))];
               RObj [("b", RSpec (constant (VNum 2)))]]) ∅ st0).1
  = Ret (VObj [("a", VNum 1); ("b", VNum 2)]).
Proof. reflexivity. Qed.

Example test_conditional_falsy :
  (run (conditional (RVal (VStr "")) (RVal (VNum 1)) (RVal (VNum 2))) ∅ st0).1
  = Ret (VNum 2).
Proof. reflexivity. Qed.

Example test_conditional_promise_branch :
  (run (conditional (RVal (VBool true)) (RSpec (resolve (RVal (VNum 1))))
          (RVal (VNum 2))) ∅ st0).1
  = Ret (VFulfilled (VNum 1)).
Proof. reflexivity. Qed.

Example test_object_undefined :
  evalFresh (object recordHost (RSpec (constant VUndef))
               (Callable (λ _, retM (RVal (VNum 1)))))
  = Ret VUndef.
Proof. vm_compute. reflexivity. Qed.

Example test_input_complex :
  match input (Callable (λ i, retM (RObj [("a", RSpec i)]))) cs0 with
  | (Ret compiled, _) => (compiled (VNum 1) st0).1 = Ret (VObj [("a", VNum 1)])
  | (Throw _, _) => False
  end.
Proof. vm_compute. reflexivity. Qed.

Example test_resolve_rejected :
  (run (resolve (RSpec (constant (VRejected (UserError "e"))))) ∅ st0).1
  = Ret (VRejected (UserError "e")).
Proof. reflexivity. Qed.

Example test_resolve_in_array :
  (run (ensureSpec (RArr [RSpec (resolve (RVal (VNum 1)))])) ∅ st0).1
  = Ret (VFulfilled (VArr [VNum 1])).
Proof. reflexivity. Qed.

(** ** Unfolding lemmas *)

Lemma liftValue_arr items :
  liftValue (VArr items) = makeSpecFn arrayBody (map liftValue items).
Proof. reflexivity. Qed.

Lemma liftValue_obj props :
  liftValue (VObj props) =
  makeSpecFn (recordBody (map fst props)) (map (λ p, liftValue p.2) props).
Proof.
  simpl. f_equal. induction props as [|[k w] ps IH]; simpl; congruence.
Qed.




(** ** The monad *)

Lemma bindM_ret_l {S A B} (a : A) (k : A → SE S B) :
  bindM (retM a) k = k a.
Proof. reflexivity. Qed.

Lemma bindM_run {S A B} (m : SE S A) (k : A → SE S B) st a st1 :
  m st = (Ret a, st1) → bindM m k st = k a st1.
Proof. intros E. unfold bindM. by rewrite E. Qed.

Lemma bindM_throw {S A B} (m : SE S A) (k : A → SE S B) st e st1 :
  m st = (Throw e, st1) → bindM m k st = (Throw e, st1).
Proof. intros E. unfold bindM. by rewrite E. Qed.


(** ** makeSpecFn *)

Lemma makeSpecFn_mayDefer b specs :
  mayDefer (makeSpecFn b specs) = bodyOverride b || existsb mayDefer specs.
Proof.
  unfold makeSpecFn.
  destruct b as [fn|fn ev hp]; simpl.
  - by destruct (existsb mayDefer specs).
  - by destruct (hp || existsb mayDefer specs).
Qed.

Lemma makeSpecFn_run_sync b specs ctx :
  mayDefer (makeSpecFn b specs) = false →
  run (makeSpecFn b specs) ctx
  = (let* vs := evalFnOf b ctx specs in bodyOf b ctx vs).
Proof.
  rewrite makeSpecFn_mayDefer. intros Hf. unfold makeSpecFn.
  destruct b as [fn|fn ev hp]; simpl in *; by rewrite Hf.
Qed.

Lemma makeSpecFn_run_defer b specs ctx :
  mayDefer (makeSpecFn b specs) = true →
  run (makeSpecFn b specs) ctx
  = (let* vs := evalFnOf b ctx specs in deferredStep (bodyOf b) ctx vs).
Proof.
  rewrite makeSpecFn_mayDefer. intros Hf. unfold makeSpecFn.
  destruct b as [fn|fn ev hp]; simpl in *; by rewrite Hf.
Qed.

Lemma defaultEvalFn_one c ctx st v st1 :
  run c ctx st = (Ret v, st1) →
  defaultEvalFn ctx [c] st = (Ret [v], st1).
Proof. intros E. unfold defaultEvalFn. simpl. unfold bindM. by rewrite E. Qed.

Lemma defaultEvalFn_one_throw c ctx st e st1 :
  run c ctx st = (Throw e, st1) →
  defaultEvalFn ctx [c] st = (Throw e, st1).
Proof. intros E. unfold defaultEvalFn. simpl. unfold bindM. by rewrite E. Qed.

Lemma then_callback_is_promise cb st v st1 :
  then_callback cb st = (Ret v, st1) → is_promise v = true.
Proof.
  unfold then_callback. destruct (cb st) as [[w|e] st2].
  - intros [= <- _]. unfold promise_resolve.
    destruct (is_promise w) eqn:E; done.
  - by intros [= <- _].
Qed.


Lemma refSpec_run sym ctx st : run (refSpec sym) ctx st = (Ret (ctx_get ctx sym), st).
Proof. reflexivity. Qed.

Lemma refSpec_mayDefer sym : mayDefer (refSpec sym) = false.
Proof. reflexivity. Qed.

Lemma ctx_get_extend ctx sym v : ctx_get (ctx_extend ctx sym v) sym = v.
Proof. unfold ctx_get, ctx_extend, context. by rewrite lookup_insert_eq. Qed.

(** C4 (as amended).  For every spec built by [makeSpecFn], the promise
    flag is the explicit override or-ed with the flags of the child specs,
    and it is a field of the spec, fixed when the spec is built.  With the
    flag set, every evaluation that returns, returns a promise.  With the
    flag clear, the spec evaluates the children and returns what the body
    returns, as it is: a promise only if the body itself returns one. *)
Theorem makeSpecFn_flag_fixes_evaluation (b : specBody) (specs : list spec) :
  let s := makeSpecFn b specs in
  mayDefer s = bodyOverride b || existsb mayDefer specs
  ∧ (if mayDefer s
     then ∀ ctx st v st1, run s ctx st = (Ret v, st1) → is_promise v = true
     else ∀ ctx, run s ctx = (let* vs := evalFnOf b ctx specs in bodyOf b ctx vs)).
Proof.
  intros s. split; [apply makeSpecFn_mayDefer|].
  destruct (mayDefer s) eqn:E.
  - intros ctx st v st1. subst s. rewrite (makeSpecFn_run_defer _ _ _ E).
    unfold bindM. destruct (evalFnOf b ctx specs st) as [[vs|e] st2]; [|done].
    unfold deferredStep. destruct (await_all vs) as [args|e].
    + apply then_callback_is_promise.
    + unfold retM. by intros [= <- _].
  - intros ctx. subst s. by apply makeSpecFn_run_sync.
Qed.

(** C4, the claim as stated fails: the reference spec [ctx => ctx[sym]]
    is built by [makeSpecFn] with the flag clear, and whether it returns a
    promise depends on the value bound in the context. *)
Lemma flag_clear_returns_bound_promise :
  let s := refSpec 0 in
  mayDefer s = false
  ∧ (run s (ctx_extend ∅ 0 (VFulfilled (VNum 1))) st0).1
    = Ret (VFulfilled (VNum 1))
  ∧ is_promise (VFulfilled (VNum 1)) = true
  ∧ (run s (ctx_extend ∅ 0 (VNum 1)) st0).1 = Ret (VNum 1)
  ∧ is_promise (VNum 1) = false.
Proof. vm_compute. repeat split. Qed.

(** ** input *)

(** C9.  The function compiled from [input(i => i)] returns its argument
    unchanged, whatever the argument and the store. *)
Theorem input_identity (cs : cstate) :
  ∃ compiled cs',
    input idFn cs = (Ret compiled, cs')
    ∧ ∀ (v : value) (st : store), compiled v st = (Ret v, st).
Proof.
  exists (λ v, run (refSpec (nextSymbol cs)) (ctx_extend ∅ (nextSymbol cs) v)).
  eexists. split; [reflexivity|].
  intros v st. rewrite refSpec_run. by rewrite ctx_get_extend.
Qed.

(** ** requireFunction *)

(** C2, the code at the failing inputs.  [map] and [call] check their
    function argument with [requireFunction] and raise [IllegalSpecError];
    [object], [bind], [cache] and [input] call theirs unchecked, and what
    a non-callable raises there is the host's [TypeError]. *)
Theorem non_callable_argument_errors (H : host) (x : raw) (cs : cstate) :
  (map_ x NotCallable cs).1
    = Throw (IllegalSpecError "argument must be function")
  ∧ (call NotCallable [x] cs).1
    = Throw (IllegalSpecError "argument must be function")
  ∧ (object H x NotCallable cs).1 = Throw (TypeError "is not a function")
  ∧ (bind x NotCallable cs).1 = Throw (TypeError "is not a function")
  ∧ (cache H x NotCallable cs).1 = Throw (TypeError "is not a function")
  ∧ (input NotCallable cs).1 = Throw (TypeError "is not a function").
Proof. repeat split. Qed.

(** ** object *)

Lemma await_all_one v :
  await_all [v] = match await v with Ret o => Ret [o] | Throw e => Throw e end.
Proof. by destruct v. Qed.

Lemma ctx_get_extend_ne ctx sym sym' v :
  sym ≠ sym' → ctx_get (ctx_extend ctx sym v) sym' = ctx_get ctx sym'.
Proof.
  intros Hne. unfold ctx_get, ctx_extend, context.
  by rewrite lookup_insert_ne.
Qed.

(** A spec over one child, evaluated by the default strategy. *)
Lemma makeSpecFn_one_sync fn hp c ctx st v st1 :
  mayDefer (makeSpecFn (BodyRec fn None hp) [c]) = false →
  run c ctx st = (Ret v, st1) →
  run (makeSpecFn (BodyRec fn None hp) [c]) ctx st = fn ctx [v] st1.
Proof.
  intros E Hv. rewrite (makeSpecFn_run_sync _ _ _ E). simpl.
  by rewrite (bindM_run _ _ _ _ _ (defaultEvalFn_one _ _ _ _ _ Hv)).
Qed.

Lemma makeSpecFn_one_defer fn hp c ctx st v st1 :
  mayDefer (makeSpecFn (BodyRec fn None hp) [c]) = true →
  run c ctx st = (Ret v, st1) →
  run (makeSpecFn (BodyRec fn None hp) [c]) ctx st
  = match await v with
    | Throw e => (Ret (VRejected e), st1)
    | Ret w => then_callback (fn ctx [w]) st1
    end.
Proof.
  intros E Hv. rewrite (makeSpecFn_run_defer _ _ _ E). simpl.
  rewrite (bindM_run _ _ _ _ _ (defaultEvalFn_one _ _ _ _ _ Hv)).
  unfold deferredStep. rewrite await_all_one. by destruct (await v).
Qed.

(** C1 (as amended).  [object(objectSpec, fn)] evaluates to the absent
    marker without evaluating [fn]'s result spec exactly when [objectSpec]
    evaluates to a falsy value ([undefined], [null], [false], [0] or the
    empty string); for every truthy value it binds that value under the
    fresh context symbol and evaluates the result spec against the
    extended context, returning its result.  With the promise flag set the
    same holds for the awaited value, the result being a promise. *)
Theorem object_guard_and_bind (H : host) (objectSpec : raw)
    (f : accessorFn) (cs cs' : cstate) (r : raw) :
  let sym := nextSymbol cs in
  f (propAccessor H sym) {| nextSymbol := S sym; nextMap := nextMap cs |}
    = (Ret r, cs') →
  ∃ sp,
    object H objectSpec (Callable f) cs = (Ret sp, cs')
    ∧ mayDefer sp = mayDefer (ensureSpec r) || mayDefer (ensureSpec objectSpec)
    ∧ ∀ ctx st v st1,
        run (ensureSpec objectSpec) ctx st = (Ret v, st1) →
        if mayDefer sp then
          match await v with
          | Throw e => run sp ctx st = (Ret (VRejected e), st1)
          | Ret obj =>
              run sp ctx st =
              if truthy obj
              then then_callback
                     (run (ensureSpec r) (ctx_extend ctx sym obj)) st1
              else (Ret (VFulfilled VUndef), st1)
          end
        else
          run sp ctx st =
          if truthy v then run (ensureSpec r) (ctx_extend ctx sym v) st1
          else (Ret VUndef, st1).
Proof.
  intros sym Hf.
  set (body := BodyRec (objectBody sym (ensureSpec r)) None
                 (mayDefer (ensureSpec r))).
  exists (makeSpecFn body [ensureSpec objectSpec]).
  split; [|split].
  - unfold object, bindM, freshSymbol, applyFn, retM. fold sym.
    by rewrite Hf.
  - rewrite makeSpecFn_mayDefer. simpl. by rewrite orb_false_r.
  - intros ctx st v st1 Hv.
    destruct (mayDefer (makeSpecFn body _)) eqn:E.
    + rewrite (makeSpecFn_run_defer _ _ _ E). simpl.
      rewrite (bindM_run _ _ _ _ _ (defaultEvalFn_one _ _ _ _ _ Hv)).
      unfold deferredStep. rewrite await_all_one.
      destruct (await v) as [obj|e]; [|done].
      unfold objectBody, arg0. simpl.
      by destruct (truthy obj).
    + rewrite (makeSpecFn_run_sync _ _ _ E). simpl.
      rewrite (bindM_run _ _ _ _ _ (defaultEvalFn_one _ _ _ _ _ Hv)).
      unfold objectBody, arg0. simpl.
      by destruct (truthy v).
Qed.

Lemma object_guard_and_bind_witness :
  ∃ sp,
    object recordHost (RSpec (constant (VObj [("a", VNum 1)])))
      (Callable (λ prop, retM (RSpec (prop (RVal (VStr "a")) false)))) cs0
    = (Ret sp, {| nextSymbol := 1; nextMap := 0 |})
    ∧ (run sp ∅ st0).1 = Ret (VNum 1).
Proof.
  destruct (object_guard_and_bind recordHost
              (RSpec (constant (VObj [("a", VNum 1)])))
              (λ prop, retM (RSpec (prop (RVal (VStr "a")) false)))
              cs0 {| nextSymbol := 1; nextMap := 0 |}
              (RSpec (propAccessor recordHost 0 (RVal (VStr "a")) false))
              eq_refl) as (sp & Hc & Hflag & Hrun).
  exists sp. split; [exact Hc|].
  specialize (Hrun ∅ st0 (VObj [("a", VNum 1)]) st0 eq_refl).
  rewrite Hflag in Hrun. simpl in Hrun. rewrite Hrun. reflexivity.
Defined.

(** C1, the claim as stated fails on a falsy present value: the object
    spec evaluates to [0], which is not the absent marker, the result spec
    evaluates to [1] against the extended context, and the composed spec
    evaluates to the absent marker. *)
Lemma object_zero_is_absent :
  let resultSpec := constant (VNum 1) in
  let eval present :=
    evalFresh (object recordHost (RSpec (constant present))
                 (Callable (λ _, retM (RSpec resultSpec)))) in
  (run (constant (VNum 0)) ∅ st0).1 = Ret (VNum 0)
  ∧ VNum 0 ≠ VUndef
  ∧ (run resultSpec (ctx_extend ∅ 0 (VNum 0)) st0).1 = Ret (VNum 1)
  ∧ eval (VNum 0) = Ret VUndef
  ∧ eval (VStr "") = Ret VUndef
  ∧ eval (VBool false) = Ret VUndef
  ∧ eval VNull = Ret VUndef.
Proof. repeat split; done. Qed.

(** ** The record body *)

Lemma obj_set_fresh name v o :
  name ∉ map fst o → obj_set name v o = o ++ [(name, v)].
Proof.
  induction o as [|[k w] o IH]; simpl; [done|].
  intros [Hk Ho]%not_elem_of_cons.
  destruct (String.eqb_spec k name) as [->|_]; [done|].
  by rewrite IH.
Qed.

Lemma assign_defined_spec names : ∀ attrs acc,
  NoDup (map fst acc ++ names) →
  assign_defined names attrs acc = acc ++ defined_pairs names attrs.
Proof.
  unfold defined_pairs.
  induction names as [|n names IH]; intros attrs acc Hnd; simpl.
  - by rewrite app_nil_r.
  - pose proof Hnd as (Hacc & Hdisj & [Hn Hnames]%NoDup_cons)%NoDup_app.
    assert (n ∉ map fst acc) as Hfresh.
    { intros Hin. apply (Hdisj n Hin). by left. }
    assert (NoDup (map fst acc ++ names)) as Hnd'.
    { apply NoDup_app. split_and!; [done| |done].
      intros x Hx Hx'. apply (Hdisj x Hx). by right. }
    destruct attrs as [|a attrs]; simpl.
    + rewrite IH by done. by destruct names.
    + destruct (is_undefined a) eqn:Ea.
      * rewrite IH by done. rewrite filter_cons_False; [done|].
        simpl. by rewrite Ea.
      * rewrite obj_set_fresh by done. rewrite IH.
        -- rewrite filter_cons_True by (simpl; by rewrite Ea).
           by rewrite <- app_assoc.
        -- rewrite map_app. simpl. by rewrite <- app_assoc.
Qed.

Lemma defined_pairs_all names attrs :
  Forall (λ a, is_undefined a = false) attrs →
  defined_pairs names attrs = zip names attrs.
Proof.
  unfold defined_pairs. revert attrs.
  induction names as [|n names IH]; intros [|a attrs] Hall; simpl; try done.
  apply Forall_cons in Hall as [Ha Hall].
  rewrite filter_cons_True by done. by rewrite IH.
Qed.

Lemma zip_map_fst_snd {A B} (l : list (A * B)) :
  zip (map fst l) (map snd l) = l.
Proof. induction l as [|[a b] l IH]; simpl; congruence. Qed.

Lemma mapM_map {A B D} (g : A → B) (f : B → M D) l :
  mapM f (map g l) = mapM (λ a, f (g a)) l.
Proof. induction l as [|a l IH]; simpl; [done|]. by rewrite IH. Qed.

(** Children that return a value and leave the store alone are evaluated
    to the list of their values. *)
Lemma mapM_pure {A} (f : A → M value) (g : A → value) l st :
  Forall (λ a, ∀ st, f a st = (Ret (g a), st)) l →
  mapM f l st = (Ret (map g l), st).
Proof.
  induction 1 as [|a l Ha _ IH]; simpl; [done|].
  unfold bindM at 1. rewrite Ha. unfold bindM at 1. by rewrite IH.
Qed.

(** ** ensureSpec on literals *)

Lemma liftable_arr items :
  liftable (VArr items) = forallb liftable items.
Proof. induction items as [|w l IH]; simpl in *; congruence. Qed.

Lemma liftable_obj props :
  liftable (VObj props)
  = bool_decide (NoDup (map fst props))
    && forallb (λ p, negb (is_undefined p.2) && liftable p.2) props.
Proof.
  simpl. f_equal. induction props as [|[k w] l IH]; simpl in *; congruence.
Qed.

Lemma liftValue_liftable v :
  liftable v = true →
  mayDefer (liftValue v) = false
  ∧ ∀ ctx st, run (liftValue v) ctx st = (Ret v, st).
Proof.
  induction v as [| |b|n|s|items IH|props IH|src|w IH|e]
    using value_nested_ind; try done.
  - (* arrays *)
    rewrite liftable_arr, liftValue_arr. intros Hl.
    rewrite forallb_forall in Hl.
    assert (Forall (λ w, mayDefer (liftValue w) = false
                         ∧ ∀ ctx st, run (liftValue w) ctx st = (Ret w, st))
              items) as Hall.
    { apply List.Forall_forall. intros w Hw.
      rewrite List.Forall_forall in IH. apply IH; [done|]. by apply Hl. }
    assert (mayDefer (makeSpecFn arrayBody (map liftValue items)) = false)
      as Hflag.
    { rewrite makeSpecFn_mayDefer. simpl.
      clear -Hall. induction Hall as [|w l [Hw _] _ IHl]; simpl; [done|].
      by rewrite Hw. }
    split; [done|]. intros ctx st.
    rewrite (makeSpecFn_run_sync _ _ _ Hflag). simpl.
    unfold defaultEvalFn, bindM. rewrite mapM_map.
    rewrite (mapM_pure _ id).
    + by rewrite map_id.
    + eapply Forall_impl; [exact Hall|]. intros w [_ Hw] st'. apply Hw.
  - (* records *)
    rewrite liftable_obj, liftValue_obj. intros Hl.
    apply andb_true_iff in Hl as [Hnd Hl].
    apply bool_decide_eq_true in Hnd.
    rewrite forallb_forall in Hl.
    assert (Forall (λ p, is_undefined p.2 = false
                         ∧ mayDefer (liftValue p.2) = false
                         ∧ ∀ ctx st, run (liftValue p.2) ctx st = (Ret p.2, st))
              props) as Hall.
    { apply List.Forall_forall. intros p Hp.
      rewrite List.Forall_forall in IH. specialize (Hl p Hp).
      apply andb_true_iff in Hl as [Hu Hl].
      split; [by apply negb_true_iff|]. by apply IH. }
    assert (mayDefer (makeSpecFn (recordBody (map fst props))
                        (map (λ p, liftValue p.2) props)) = false) as Hflag.
    { rewrite makeSpecFn_mayDefer. simpl.
      clear -Hall. induction Hall as [|p l (_ & Hp & _) _ IHl]; simpl; [done|].
      by rewrite Hp. }
    split; [done|]. intros ctx st.
    rewrite (makeSpecFn_run_sync _ _ _ Hflag). simpl.
    unfold defaultEvalFn, bindM. rewrite mapM_map.
    rewrite (mapM_pure _ snd).
    + unfold retM. do 2 f_equal.
      rewrite assign_defined_spec by (simpl; exact Hnd).
      simpl. rewrite defined_pairs_all.
      * by rewrite zip_map_fst_snd.
      * apply Forall_map. eapply Forall_impl; [exact Hall|].
        by intros p (Hu & _).
    + eapply Forall_impl; [exact Hall|]. intros p (_ & _ & Hp) st'. apply Hp.
Qed.

(** The literals the lifting reproduces.  For every literal built from
    [undefined], booleans, numbers, strings and functions, arrays of such
    literals, and records of such literals none of whose values is
    [undefined], evaluating [ensureSpec] of it yields the literal.  A
    value for which [typeof] is not ['object'] is lifted to [constant] of
    it. *)
Theorem ensureSpec_literal (v : value) :
  liftable v = true →
  (∀ ctx st, run (ensureSpec (RVal v)) ctx st = (Ret v, st))
  ∧ match v with
    | VUndef | VBool _ | VNum _ | VStr _ | VFun _ =>
        ensureSpec (RVal v) = constant v
    | _ => True
    end.
Proof.
  intros Hl. split.
  - apply (liftValue_liftable v Hl).
  - by destruct v.
Qed.

Lemma ensureSpec_literal_witness :
  run (ensureSpec (RVal (VObj [("a", VNum 1);
                               ("b", VArr [VStr "x"; VUndef; VBool true])])))
    ∅ st0
  = (Ret (VObj [("a", VNum 1); ("b", VArr [VStr "x"; VUndef; VBool true])]),
     st0).
Proof.
  exact (proj1 (ensureSpec_literal
                  (VObj [("a", VNum 1);
                         ("b", VArr [VStr "x"; VUndef; VBool true])])
                  eq_refl) ∅ st0).
Defined.

(** C3, the code at the failing input.  The scalar [null] passes the
    test [typeof spec === 'object'], so it is lifted like a record
    without keys and evaluates to the empty record, not to [null]; every
    other scalar reaches [constant] and evaluates to itself. *)
Lemma ensureSpec_null_is_empty_record :
  run (ensureSpec (RVal VNull)) ∅ st0 = (Ret (VObj []), st0)
  ∧ VObj [] ≠ VNull
  ∧ ∀ v, primitive v = true → v ≠ VNull →
      ensureSpec (RVal v) = constant v
      ∧ ∀ ctx st, run (ensureSpec (RVal v)) ctx st = (Ret v, st).
Proof.
  split; [done|]. split; [done|].
  intros v Hp Hn. by destruct v.
Qed.






(** ** cases *)

Lemma own_lookup_app_fresh {A} name (o1 o2 : list (string * A)) :
  name ∉ map fst o1 → own_lookup name (o1 ++ o2) = own_lookup name o2.
Proof.
  induction o1 as [|[k x] o1 IH]; simpl; [done|].
  intros [Hk Ho]%not_elem_of_cons.
  destruct (String.eqb_spec k name) as [->|_]; [done|]. by apply IH.
Qed.

Lemma raw_set_app_fresh name r x o1 o2 :
  name ∉ map fst o1 →
  raw_set name r (o1 ++ (name, x) :: o2) = o1 ++ (name, r) :: o2.
Proof.
  induction o1 as [|[k y] o1 IH]; simpl.
  - intros _. by rewrite String.eqb_refl.
  - intros [Hk Ho]%not_elem_of_cons.
    destruct (String.eqb_spec k name) as [->|_]; [done|]. by rewrite IH.
Qed.

Lemma map_fst_liftEntry l : map fst (map liftEntry l) = map fst l.
Proof. induction l as [|[k x] l IH]; simpl; congruence. Qed.

(** The loop invariant: the entries already visited hold their lifted
    specs, the others are as the caller passed them. *)
Lemma casesLoop_spec rest : ∀ visited hp,
  NoDup (map fst (visited ++ rest)) →
  casesLoop (map fst rest) (map liftEntry visited ++ rest) hp
  = (map liftEntry (visited ++ rest),
     fold_left (λ b p, b || mayDefer (ensureSpec p.2)) rest hp).
Proof.
  induction rest as [|[n x] rest IH]; intros visited hp Hnd; simpl.
  - by rewrite !app_nil_r.
  - assert (n ∉ map fst (map liftEntry visited)) as Hfresh.
    { rewrite map_fst_liftEntry. rewrite map_app in Hnd.
      apply NoDup_app in Hnd as (_ & Hd & _). intros Hin.
      apply (Hd n Hin). by left. }
    unfold raw_get. rewrite own_lookup_app_fresh by done. simpl.
    rewrite String.eqb_refl. simpl.
    rewrite raw_set_app_fresh by done.
    replace (map liftEntry visited ++ (n, RSpec (ensureSpec x)) :: rest)
      with (map liftEntry (visited ++ [(n, x)]) ++ rest)
      by (by rewrite map_app, <- app_assoc).
    rewrite IH by (by rewrite <- app_assoc).
    by rewrite <- app_assoc.
Qed.

Lemma fold_left_orb_existsb {A} (p : A → bool) l b :
  fold_left (λ b a, b || p a) l b = b || existsb p l.
Proof.
  revert b. induction l as [|a l IH]; intros b; simpl.
  - by rewrite orb_false_r.
  - rewrite IH. by rewrite orb_assoc.
Qed.

Lemma cases_unfold spec0 caseSpecs :
  NoDup (map fst caseSpecs) →
  cases spec0 caseSpecs
  = (casesFn (ensureSpec spec0)
       (mayDefer (ensureSpec spec0)
        || existsb (λ p, mayDefer (ensureSpec p.2)) caseSpecs)
       (map liftEntry caseSpecs),
     map liftEntry caseSpecs).
Proof.
  intros Hnd. unfold cases.
  pose proof (casesLoop_spec caseSpecs [] (mayDefer (ensureSpec spec0)) Hnd)
    as Hloop.
  simpl in Hloop. rewrite Hloop. by rewrite fold_left_orb_existsb.
Qed.

Lemma own_lookup_liftEntry name caseSpecs :
  own_lookup name (map liftEntry caseSpecs)
  = (λ x, RSpec (ensureSpec x)) <$> own_lookup name caseSpecs.
Proof.
  induction caseSpecs as [|[k x] l IH]; simpl; [done|].
  by destruct (String.eqb k name).
Qed.

(** Every entry the loop leaves in the map is a spec. *)
Lemma casesLoop_entries spec0 caseSpecs name r :
  NoDup (map fst caseSpecs) →
  own_lookup name (cases spec0 caseSpecs).2 = Some r →
  ∃ s, r = RSpec s.
Proof.
  intros Hnd. rewrite cases_unfold by done. simpl.
  rewrite own_lookup_liftEntry.
  destruct (own_lookup name caseSpecs) as [x|]; simpl; [|done].
  intros [= <-]. by eexists.
Qed.





Lemma cases_flag_any spec0 caseSpecs :
  NoDup (map fst caseSpecs) →
  mayDefer (cases spec0 caseSpecs).1
  = mayDefer (ensureSpec spec0)
    || existsb (λ p, mayDefer (ensureSpec p.2)) caseSpecs.
Proof.
  intros Hnd. rewrite cases_unfold by done. simpl. unfold casesFn.
  by destruct (_ || _).
Qed.

(** C6, the code at the failing inputs.  The case map [{a: 1, b: 2}] has
    no entry for ['toString'] nor for ['__proto__'], but [caseSpecs[key]]
    finds the members every plain object inherits: with the first the
    spec evaluates to a string, not to the absent marker, and with the
    second it fails with a [TypeError].  The matching key ['b'] and the
    unknown key ['c'] behave as the claim says. *)
Theorem cases_inherited_key_is_not_absent :
  let caseMap := [("a", RVal (VNum 1)); ("b", RVal (VNum 2))] in
  let eval key := (run (cases (RSpec (constant (VStr key))) caseMap).1 ∅ st0).1 in
  own_lookup "toString" caseMap = None
  ∧ own_lookup "__proto__" caseMap = None
  ∧ eval "toString" = Ret (VStr "[object Undefined]")
  ∧ eval "__proto__" = Throw (TypeError "caseSpec is not a function")
  ∧ eval "b" = Ret (VNum 2)
  ∧ eval "c" = Ret VUndef.
Proof. repeat split. Qed.

(** ** map *)




Lemma mapBody_sync sym itemSpec ctx xs st :
  mayDefer itemSpec = false →
  mapBody sym itemSpec ctx [VArr xs] st
  = (let* ys := mapM (λ x, run itemSpec (ctx_extend ctx sym x)) xs in
     retM (VArr ys)) st.
Proof.
  intros E. unfold mapBody, arg0. simpl. unfold bindM.
  destruct (mapM _ xs st) as [[ys|e] st']; [|done]. by rewrite E.
Qed.


Lemma mapBody_mismatch sym itemSpec ctx v st :
  (∀ xs, v ≠ VArr xs) →
  mapBody sym itemSpec ctx [v] st
  = (Throw (TypeError ("Argument did not evaluate to an array: "
                       ++ js_typeof v)%string), st).
Proof. intros Hv. destruct v; try done. by destruct (Hv items). Qed.



(** ** cache *)

Section MemoTable.
Variable H : host.
Local Abbreviation keq := (sameValueZero H).
Hypothesis keq_refl : ∀ k, keq k k = true.

Lemma map_get_set k r m : map_get H k (map_set H k r m) = r.
Proof.
  unfold map_get. induction m as [|p m IH]; simpl.
  - by rewrite keq_refl.
  - destruct (keq p.1 k) eqn:E; simpl; rewrite E; [done|]. apply IH.
Qed.

Lemma map_has_set k r m : map_has H k (map_set H k r m) = true.
Proof.
  unfold map_has. induction m as [|p m IH]; simpl.
  - by rewrite keq_refl.
  - destruct (keq p.1 k) eqn:E; simpl; rewrite E; [done|]. apply IH.
Qed.

Lemma memo_of_put id m st : memo_of id (memo_put id m st) = m.
Proof. unfold memo_of, memo_put. simpl. by rewrite lookup_insert_eq. Qed.


Lemma cacheBody_miss id sym valueSpec ctx k st res st2 :
  map_has H k (memo_of id st) = false →
  run valueSpec (ctx_extend ctx sym k) st = (Ret res, st2) →
  cacheBody H id sym valueSpec ctx [k] st
  = (Ret res, memo_put id (map_set H k res (memo_of id st2)) st2).
Proof.
  intros Hh Hv. unfold cacheBody, bindM, arg0. simpl. rewrite Hh. simpl.
  rewrite Hv. by rewrite memo_of_put, map_get_set.
Qed.


End MemoTable.

(** ** Structural equality of values *)

Lemma error_eqb_eq e1 e2 : error_eqb e1 e2 = true ↔ e1 = e2.
Proof.
  destruct e1, e2; simpl; try (split; [done|by intros [=]]);
    rewrite String.eqb_eq; split; congruence.
Qed.

Lemma value_eqb_eq v1 : ∀ v2, value_eqb v1 v2 = true ↔ v1 = v2.
Proof.
  induction v1 as [| |b|n|s|items IH|props IH|src|w IH|e]
    using value_nested_ind; intros v2; destruct v2; simpl;
    try (split; [done|by intros [=]]); try done.
  - rewrite Bool.eqb_true_iff. split; congruence.
  - rewrite Z.eqb_eq. split; congruence.
  - rewrite String.eqb_eq. split; congruence.
  - revert items0. induction IH as [|x l Hx _ IHl]; intros [|y l'];
      try (split; [done|by intros [=]]); try done.
    rewrite andb_true_iff, Hx. specialize (IHl l').
    split.
    + intros [-> Hl]. apply IHl in Hl. congruence.
    + intros [= -> ->]. split; [done|]. by apply IHl.
  - revert props0. induction IH as [|[k x] l Hx _ IHl]; intros [|[k' y] l'];
      try (split; [done|by intros [=]]); try done.
    rewrite !andb_true_iff, String.eqb_eq. simpl in Hx. rewrite Hx.
    specialize (IHl l').
    split.
    + intros [[-> ->] Hl]. apply IHl in Hl. congruence.
    + intros [= -> -> ->]. split; [done|]. by apply IHl.
  - rewrite String.eqb_eq. split; congruence.
  - rewrite IH. split; congruence.
  - rewrite error_eqb_eq. split; congruence.
Qed.

Lemma value_eqb_refl k : value_eqb k k = true.
Proof. by apply value_eqb_eq. Qed.

Lemma value_eqb_sym a b : value_eqb a b = value_eqb b a.
Proof.
  destruct (value_eqb a b) eqn:E.
  - apply value_eqb_eq in E as ->. symmetry. apply value_eqb_refl.
  - destruct (value_eqb b a) eqn:E'; [|done].
    apply value_eqb_eq in E' as ->. by rewrite value_eqb_refl in E.
Qed.

Lemma value_eqb_trans a b c :
  value_eqb a b = true → value_eqb b c = true → value_eqb a c = true.
Proof. by intros ->%value_eqb_eq ->%value_eqb_eq; apply value_eqb_refl. Qed.

(** [cache(1, key => call(fn))]. *)
Example test_cache_same_key_once :
  match cache recordHost (RVal (VNum 1))
          (Callable (λ _, let* s := call (Callable countCalls) [] in
                          retM (RSpec s))) cs0 with
  | (Ret sp, _) =>
      let '(o1, o2, st2) := evalTwice sp st0 in
      o1 = Ret (VNum 1) ∧ o2 = Ret (VNum 1)
      ∧ vars st2 !! "calls" = Some (VNum 1)
  | (Throw _, _) => False
  end.
Proof. vm_compute. repeat split. Qed.

(** ** cache over primitive keys *)

Section PrimitiveKeys.
Variable H : host.

(** The key equality of [Map] on a primitive key is equality of values;
    nothing is assumed about two keys that are both objects. *)
Hypothesis keq_prim :
  ∀ a b, primitive b = true → sameValueZero H a b = value_eqb a b.






End PrimitiveKeys.



(** * Further properties of the combinators *)

(** ** conditional *)

(** [conditional] evaluates the value spec and then the one branch its
    truthiness selects, from the store the value spec left; the other
    branch takes no part in the result.  Its promise flag is the or of the
    three flags; with the flag set the value is awaited first and the
    result is a promise. *)
Theorem conditional_selects_one_branch (valueSpec trueSpec falseSpec : raw)
    (ctx : context) (st st1 : store) (v : value) :
  run (ensureSpec valueSpec) ctx st = (Ret v, st1) →
  let sp := conditional valueSpec trueSpec falseSpec in
  let branch c := ensureSpec (if truthy c then trueSpec else falseSpec) in
  mayDefer sp
  = mayDefer (ensureSpec trueSpec) || mayDefer (ensureSpec falseSpec)
    || mayDefer (ensureSpec valueSpec)
  ∧ if mayDefer sp then
      match await v with
      | Throw e => run sp ctx st = (Ret (VRejected e), st1)
      | Ret c => run sp ctx st = then_callback (run (branch c) ctx) st1
      end
    else run sp ctx st = run (branch v) ctx st1.
Proof.
  intros Hv sp branch. split.
  - unfold sp, conditional. rewrite makeSpecFn_mayDefer. simpl.
    by rewrite orb_false_r.
  - destruct (mayDefer sp) eqn:E; unfold sp, conditional in *.
    + rewrite (makeSpecFn_one_defer _ _ _ _ _ _ _ E Hv).
      destruct (await v) as [c|e]; [|done].
      unfold arg0, branch. simpl. by destruct (truthy c).
    + rewrite (makeSpecFn_one_sync _ _ _ _ _ _ _ E Hv).
      unfold arg0, branch. simpl. by destruct (truthy v).
Qed.

Lemma conditional_selects_one_branch_witness :
  run (conditional (RVal (VStr "")) (RVal (VNum 1)) (RVal (VNum 2))) ∅ st0
  = (Ret (VNum 2), st0).
Proof.
  exact (proj2 (conditional_selects_one_branch
                  (RVal (VStr "")) (RVal (VNum 1)) (RVal (VNum 2))
                  ∅ st0 st0 (VStr "") eq_refl)).
Defined.

(** ** bind *)

(** [bind(valueSpec, fn)] evaluates the value spec once, binds its value
    (the awaited one with the promise flag set) under the symbol minted at
    construction, and evaluates the spec [fn] built against the extended
    context. *)
Theorem bind_evaluates_under_binding (valueSpec : raw) (f : specFn)
    (cs cs' : cstate) (r : raw) :
  let sym := nextSymbol cs in
  f (refSpec sym) {| nextSymbol := S sym; nextMap := nextMap cs |}
    = (Ret r, cs') →
  ∃ sp,
    bind valueSpec (Callable f) cs = (Ret sp, cs')
    ∧ mayDefer sp = mayDefer (ensureSpec r) || mayDefer (ensureSpec valueSpec)
    ∧ ∀ ctx st v st1,
        run (ensureSpec valueSpec) ctx st = (Ret v, st1) →
        if mayDefer sp then
          match await v with
          | Throw e => run sp ctx st = (Ret (VRejected e), st1)
          | Ret w =>
              run sp ctx st
              = then_callback (run (ensureSpec r) (ctx_extend ctx sym w)) st1
          end
        else run sp ctx st = run (ensureSpec r) (ctx_extend ctx sym v) st1.
Proof.
  intros sym Hf.
  eexists. split; [|split].
  - unfold bind, bindM, freshSymbol, applyFn, retM. fold sym.
    rewrite Hf. reflexivity.
  - rewrite makeSpecFn_mayDefer. simpl. by rewrite orb_false_r.
  - intros ctx st v st1 Hv.
    match goal with |- context [mayDefer ?s] => destruct (mayDefer s) eqn:E end.
    + rewrite (makeSpecFn_one_defer _ _ _ _ _ _ _ E Hv).
      by destruct (await v).
    + by rewrite (makeSpecFn_one_sync _ _ _ _ _ _ _ E Hv).
Qed.

Lemma bind_evaluates_under_binding_witness :
  ∃ sp,
    bind (RVal (VNum 1)) (Callable (λ val, retM (RObj [("a", RSpec val)]))) cs0
      = (Ret sp, {| nextSymbol := 1; nextMap := 0 |})
    ∧ run sp ∅ st0 = (Ret (VObj [("a", VNum 1)]), st0).
Proof.
  destruct (bind_evaluates_under_binding (RVal (VNum 1))
              (λ val, retM (RObj [("a", RSpec val)])) cs0
              {| nextSymbol := 1; nextMap := 0 |}
              (RObj [("a", RSpec (refSpec 0))]) eq_refl)
    as (sp & Hc & Hflag & Hrun).
  exists sp. split; [exact Hc|].
  specialize (Hrun ∅ st0 (VNum 1) st0 eq_refl).
  rewrite Hflag in Hrun. simpl in Hrun. rewrite Hrun. reflexivity.
Defined.

(** Nested bindings do not collide: in
    [bind(a, x => bind(b, y => [x, y]))] the two references read the two
    values, each under the symbol its own [bind] minted, and the inner
    value spec is evaluated in the context that already holds the outer
    binding.  The spec defers when [a] or [b] does; the values bound are
    then the awaited ones and the pair is what the promise is fulfilled
    with. *)
Theorem bind_nested_references (a b : raw) (cs : cstate)
    (ctx : context) (st st1 st2 : store) (va wa vb wb : value) :
  let sym := nextSymbol cs in
  let fa := mayDefer (ensureSpec a) in
  let fb := mayDefer (ensureSpec b) in
  run (ensureSpec a) ctx st = (Ret va, st1) →
  (if fa || fb then await va = Ret wa else va = wa) →
  run (ensureSpec b) (ctx_extend ctx sym wa) st1 = (Ret vb, st2) →
  (if fb then await vb = Ret wb else vb = wb) →
  ∃ sp,
    bind a (Callable (λ x,
      let* inner := bind b (Callable (λ y, retM (RArr [RSpec x; RSpec y]))) in
      retM (RSpec inner))) cs
    = (Ret sp, {| nextSymbol := S (S sym); nextMap := nextMap cs |})
    ∧ mayDefer sp = fa || fb
    ∧ run sp ctx st
      = (Ret (if fa || fb then VFulfilled (VArr [wa; wb]) else VArr [wa; wb]),
         st2).
Proof.
  intros sym fa fb Hva Hwa Hvb Hwb.
  set (arr := ensureSpec (RArr [RSpec (refSpec sym); RSpec (refSpec (S sym))])).
  set (inner := makeSpecFn
         (BodyRec (λ c vs, run arr (ctx_extend c (S sym) (arg0 vs))) None
            (mayDefer arr)) [ensureSpec b]).
  set (outer := makeSpecFn
         (BodyRec (λ c vs, run inner (ctx_extend c sym (arg0 vs))) None
            (mayDefer inner)) [ensureSpec a]).
  exists outer. split; [reflexivity|].
  assert (∀ c x y s, run arr (ctx_extend (ctx_extend c sym x) (S sym) y) s
                     = (Ret (VArr [x; y]), s)) as Harr.
  { intros c x y s. unfold arr. simpl. unfold makeSpecFn. simpl.
    unfold bindM, defaultEvalFn. simpl. unfold bindM. simpl.
    rewrite ctx_get_extend, ctx_get_extend_ne, ctx_get_extend by lia.
    reflexivity. }
  assert (mayDefer inner = fb) as Hinner.
  { unfold inner. rewrite makeSpecFn_mayDefer. simpl. by rewrite orb_false_r. }
  assert (run inner (ctx_extend ctx sym wa) st1
          = (Ret (if fb then VFulfilled (VArr [wa; wb]) else VArr [wa; wb]),
             st2)) as Hin.
  { destruct fb eqn:Eb.
    - unfold inner in *. rewrite (makeSpecFn_one_defer _ _ _ _ _ _ _ Hinner Hvb).
      rewrite Hwb. unfold then_callback.
      cbv [arg0 head default from_option id]. by rewrite Harr.
    - unfold inner in *. rewrite (makeSpecFn_one_sync _ _ _ _ _ _ _ Hinner Hvb).
      subst vb. cbv [arg0 head default from_option id]. by rewrite Harr. }
  assert (mayDefer outer = fa || fb) as Houter.
  { unfold outer. rewrite makeSpecFn_mayDefer. cbn [bodyOverride existsb].
    rewrite Hinner, orb_false_r. apply orb_comm. }
  split; [exact Houter|].
  destruct (fa || fb) eqn:E.
  - unfold outer in *. rewrite (makeSpecFn_one_defer _ _ _ _ _ _ _ Houter Hva).
    rewrite Hwa. unfold then_callback.
    cbv [arg0 head default from_option id]. rewrite Hin.
    by destruct fb.
  - unfold outer in *. rewrite (makeSpecFn_one_sync _ _ _ _ _ _ _ Houter Hva).
    subst va. cbv [arg0 head default from_option id]. rewrite Hin.
    apply orb_false_iff in E as [_ ->]. done.
Qed.

Lemma bind_nested_references_witness :
  (∃ sp,
     bind (RVal (VNum 1)) (Callable (λ x,
       let* inner := bind (RVal (VNum 2))
                       (Callable (λ y, retM (RArr [RSpec x; RSpec y]))) in
       retM (RSpec inner))) cs0
     = (Ret sp, {| nextSymbol := 2; nextMap := 0 |})
     ∧ mayDefer sp = false
     ∧ run sp ∅ st0 = (Ret (VArr [VNum 1; VNum 2]), st0))
  ∧ (∃ sp,
       bind (RSpec (resolve (RVal (VNum 1)))) (Callable (λ x,
         let* inner := bind (RVal (VNum 2))
                         (Callable (λ y, retM (RArr [RSpec x; RSpec y]))) in
         retM (RSpec inner))) cs0
       = (Ret sp, {| nextSymbol := 2; nextMap := 0 |})
       ∧ mayDefer sp = true
       ∧ run sp ∅ st0 = (Ret (VFulfilled (VArr [VNum 1; VNum 2])), st0)).
Proof.
  split.
  - exact (bind_nested_references (RVal (VNum 1)) (RVal (VNum 2)) cs0
             ∅ st0 st0 st0 (VNum 1) (VNum 1) (VNum 2) (VNum 2)
             eq_refl eq_refl eq_refl eq_refl).
  - exact (bind_nested_references (RSpec (resolve (RVal (VNum 1))))
             (RVal (VNum 2)) cs0
             ∅ st0 st0 st0 (VFulfilled (VNum 1)) (VNum 1) (VNum 2) (VNum 2)
             eq_refl eq_refl eq_refl eq_refl).
Defined.

(** ** resolve *)

(** [resolve] sets the promise flag whatever its child's flag is, and its
    evaluation returns a promise settled like the child's value: rejected
    with the child's rejection, fulfilled with the value the child's
    promise is fulfilled with, or with the child's plain value. *)
Theorem resolve_defers (promiseSpec : raw) (ctx : context)
    (st st1 : store) (v : value) :
  run (ensureSpec promiseSpec) ctx st = (Ret v, st1) →
  mayDefer (resolve promiseSpec) = true
  ∧ run (resolve promiseSpec) ctx st
    = (Ret match await v with
           | Throw e => VRejected e
           | Ret w => promise_resolve (promise_resolve w)
           end, st1)
  ∧ (is_promise v = false →
     run (resolve promiseSpec) ctx st = (Ret (VFulfilled v), st1)).
Proof.
  intros Hv.
  assert (mayDefer (resolve promiseSpec) = true) as E by done.
  assert (run (resolve promiseSpec) ctx st
          = (Ret match await v with
                 | Throw e => VRejected e
                 | Ret w => promise_resolve (promise_resolve w)
                 end, st1)) as Hrun.
  { unfold resolve in *. rewrite (makeSpecFn_one_defer _ _ _ _ _ _ _ E Hv).
    by destruct (await v). }
  split; [done|]. split; [done|].
  intros Hp. rewrite Hrun. by destruct v.
Qed.

Lemma resolve_defers_witness :
  run (resolve (RSpec (constant (VRejected (UserError "e"))))) ∅ st0
  = (Ret (VRejected (UserError "e")), st0).
Proof.
  exact (proj1 (proj2 (resolve_defers
           (RSpec (constant (VRejected (UserError "e")))) ∅ st0 st0
           (VRejected (UserError "e")) eq_refl))).
Defined.

(** ** Failure propagation in makeSpecFn *)




(** Without the promise flag, a child that raises stops the evaluation:
    the children after it and the body are not evaluated, and the error
    is raised as it is. *)
Theorem makeSpecFn_sync_child_failure (fn : body) (before after : list spec)
    (c : spec) (ctx : context) (st st1 st2 : store) (vs : list value)
    (e : error) :
  mayDefer (makeSpecFn (BodyFn fn) (before ++ c :: after)) = false →
  mapM (λ s, run s ctx) before st = (Ret vs, st1) →
  run c ctx st1 = (Throw e, st2) →
  run (makeSpecFn (BodyFn fn) (before ++ c :: after)) ctx st = (Throw e, st2).
Proof.
  intros E Hb Hc. rewrite (makeSpecFn_run_sync _ _ _ E). simpl.
  apply bindM_throw. unfold defaultEvalFn.
  clear E. revert st vs Hb.
  induction before as [|s l IH]; intros st vs Hb; simpl in *.
  - unfold retM in Hb. injection Hb as <- <-. unfold bindM. by rewrite Hc.
  - unfold bindM at 1. unfold bindM at 1 in Hb.
    destruct (run s ctx st) as [[v|e'] st']; [|done].
    unfold bindM at 1. unfold bindM at 1 in Hb.
    destruct (mapM _ l st') as [[vs'|e'] st''] eqn:El; [|done].
    unfold retM in Hb. injection Hb as _ Hst. subst st''.
    by rewrite (IH st' vs' El).
Qed.

Lemma makeSpecFn_sync_child_failure_witness :
  run (makeSpecFn (BodyFn (λ _ items, retM (VArr items)))
         ([constant (VNum 1)]
          ++ makeSpecFn (BodyFn (λ _ _, throwM (UserError "x"))) []
          :: [constant (VNum 2)])) ∅ st0
  = (Throw (UserError "x"), st0).
Proof.
  exact (makeSpecFn_sync_child_failure (λ _ items, retM (VArr items))
           [constant (VNum 1)] [constant (VNum 2)]
           (makeSpecFn (BodyFn (λ _ _, throwM (UserError "x"))) [])
           ∅ st0 st0 st0 [VNum 1] (UserError "x")
           eq_refl eq_refl eq_refl).
Defined.

(** ** ensureSpec on arrays *)







(** ** call *)



(** ** union *)






(** ** Property access through object *)

(** Over a record, [object(objectSpec, prop => prop(name, required))]
    evaluates to the record's own value under [name] when it has one.
    When [name] is neither a key of the record nor inherited, the result
    is [undefined], unless [required] is set: then the evaluation fails
    with the [TypeError] that names the property.  When [objectSpec]
    defers, the record is the awaited one and the outcome is a promise:
    resolved with the value, or rejected with the [TypeError]. *)
Theorem object_reads_property (objectSpec : raw) (name : string)
    (required : bool) (cs : cstate) (ctx : context) (st st1 : store)
    (v : value) (props : list (string * value)) :
  run (ensureSpec objectSpec) ctx st = (Ret v, st1) →
  (if mayDefer (ensureSpec objectSpec) then await v = Ret (VObj props)
   else v = VObj props) →
  ∃ sp,
    object recordHost objectSpec
      (Callable (λ prop, retM (RSpec (prop (RVal (VStr name)) required)))) cs
    = (Ret sp, {| nextSymbol := S (nextSymbol cs); nextMap := nextMap cs |})
    ∧ mayDefer sp = mayDefer (ensureSpec objectSpec)
    ∧ let settle (o : outcome value) :=
        if mayDefer sp then
          match o with
          | Ret x => Ret (promise_resolve x)
          | Throw e => Ret (VRejected e)
          end
        else o in
      match own_lookup name props with
      | Some x => run sp ctx st = (settle (Ret x), st1)
      | None =>
          inherited name = false →
          run sp ctx st
          = (settle (if required
                     then Throw (TypeError
                                   ("Required property missing: " ++ name)%string)
                     else Ret VUndef), st1)
      end.
Proof.
  intros Hobj Hv.
  set (sym := nextSymbol cs).
  set (acc := propAccessor recordHost sym (RVal (VStr name)) required).
  set (sp := makeSpecFn (BodyRec (objectBody sym acc) None (mayDefer acc))
               [ensureSpec objectSpec]).
  exists sp. split; [reflexivity|].
  assert (mayDefer acc = false) as Hacc by done.
  assert (mayDefer sp = mayDefer (ensureSpec objectSpec)) as Hflag.
  { unfold sp. rewrite makeSpecFn_mayDefer. cbn [bodyOverride existsb].
    by rewrite Hacc, orb_false_r. }
  split; [exact Hflag|].
  assert (run acc (ctx_extend ctx sym (VObj props)) st1
          = match own_lookup name props with
            | Some x => (Ret x, st1)
            | None =>
                if inherited name then
                  (record_get (VObj props) (VStr name), st1)
                else if required then
                  (Throw (TypeError ("Required property missing: " ++ name)%string),
                   st1)
                else (Ret VUndef, st1)
            end) as Hrun.
  { unfold acc, propAccessor. rewrite (makeSpecFn_run_sync _ _ _ Hacc).
    simpl. unfold bindM, defaultEvalFn. simpl. unfold bindM, arg0. simpl.
    rewrite ctx_get_extend. simpl.
    destruct (own_lookup name props) as [x|] eqn:El; simpl.
    - by destruct required.
    - destruct (inherited name) eqn:Ei; simpl.
      + by destruct required.
      + destruct required; simpl; [done|].
        destruct (String.eqb_spec name "__proto__") as [->|_]; [|done].
        by vm_compute in Ei. }
  assert (objectBody sym acc ctx [VObj props] st1
          = run acc (ctx_extend ctx sym (VObj props)) st1) as Hbody by done.
  rewrite Hflag.
  destruct (mayDefer (ensureSpec objectSpec)) eqn:E.
  - unfold sp in *.
    rewrite (makeSpecFn_one_defer _ _ _ _ _ _ _ Hflag Hobj), Hv.
    unfold then_callback. rewrite Hbody, Hrun.
    destruct (own_lookup name props); simpl; [done|].
    intros ->. simpl. by destruct required.
  - unfold sp in *.
    rewrite (makeSpecFn_one_sync _ _ _ _ _ _ _ Hflag Hobj). subst v.
    rewrite Hbody, Hrun.
    destruct (own_lookup name props); [done|].
    intros ->. by destruct required.
Qed.

Lemma object_reads_property_witness :
  (∃ sp,
     object recordHost (RVal (VObj [("a", VNum 1)]))
       (Callable (λ prop, retM (RSpec (prop (RVal (VStr "b")) true)))) cs0
     = (Ret sp, {| nextSymbol := 1; nextMap := 0 |})
     ∧ run sp ∅ st0
       = (Throw (TypeError "Required property missing: b"), st0))
  ∧ (∃ sp,
       object recordHost (RSpec (resolve (RVal (VObj [("a", VNum 1)]))))
         (Callable (λ prop, retM (RSpec (prop (RVal (VStr "a")) false)))) cs0
       = (Ret sp, {| nextSymbol := 1; nextMap := 0 |})
       ∧ run sp ∅ st0 = (Ret (VFulfilled (VNum 1)), st0)).
Proof.
  split.
  - destruct (object_reads_property (RVal (VObj [("a", VNum 1)])) "b" true
                cs0 ∅ st0 st0 (VObj [("a", VNum 1)]) [("a", VNum 1)]
                eq_refl eq_refl)
      as (sp & Hc & Hflag & Hrun).
    exists sp. split; [exact Hc|].
    rewrite Hflag in Hrun. exact (Hrun eq_refl).
  - destruct (object_reads_property
                (RSpec (resolve (RVal (VObj [("a", VNum 1)])))) "a" false
                cs0 ∅ st0 st0 (VFulfilled (VObj [("a", VNum 1)]))
                [("a", VNum 1)] eq_refl eq_refl)
      as (sp & Hc & Hflag & Hrun).
    exists sp. split; [exact Hc|].
    rewrite Hflag in Hrun. exact Hrun.
Defined.

(** ** Dispatch in cases *)

(** For a case map (each key once) that the caller leaves as [cases]
    left it, and a selector value that is [undefined], [null], a boolean,
    a string or an integer up to [2^53 - 1] in absolute value: [cases]
    defers exactly when the selector or a case does; the selector's
    value, converted to a property name, selects the case of that name
    and only that case is evaluated, from the store the selector left; a
    name that is neither a case nor inherited from [Object.prototype]
    gives the absent marker.  With the flag set the selector is the
    awaited one and the result is a promise. *)
Theorem cases_dispatches_on_own_key (spec0 : raw)
    (caseSpecs : list (string * raw)) (ctx : context) (st st1 : store)
    (v key : value) :
  NoDup (map fst caseSpecs) →
  run (ensureSpec spec0) ctx st = (Ret v, st1) →
  let sp := (cases spec0 caseSpecs).1 in
  (if mayDefer sp then await v = Ret key else v = key) →
  safe_key key = true →
  mayDefer sp
  = mayDefer (ensureSpec spec0)
    || existsb (λ p, mayDefer (ensureSpec p.2)) caseSpecs
  ∧ match own_lookup (to_string key) caseSpecs with
    | Some x =>
        run sp ctx st
        = if mayDefer sp then then_callback (run (ensureSpec x) ctx) st1
          else run (ensureSpec x) ctx st1
    | None =>
        inherited (to_string key) = false →
        run sp ctx st
        = (Ret (if mayDefer sp then VFulfilled VUndef else VUndef), st1)
    end.
Proof.
  intros Hnd Hv sp Hkey _. split; [by apply cases_flag_any|].
  revert Hkey. unfold sp. rewrite cases_unfold by done. simpl.
  unfold casesFn.
  destruct (_ || _); simpl; intros Hkey; unfold bindM; rewrite Hv.
  - rewrite Hkey. unfold lookup_case. rewrite own_lookup_liftEntry.
    destruct (own_lookup (to_string key) caseSpecs) as [x|]; simpl; [done|].
    by intros ->.
  - subst v. unfold lookup_case. rewrite own_lookup_liftEntry.
    destruct (own_lookup (to_string key) caseSpecs) as [x|]; simpl; [done|].
    by intros ->.
Qed.

Lemma cases_dispatches_on_own_key_witness :
  run (cases (RSpec (constant (VNum 2)))
         [("1", RVal (VStr "one")); ("2", RVal (VStr "two"))]).1 ∅ st0
  = (Ret (VStr "two"), st0).
Proof.
  exact (proj2 (cases_dispatches_on_own_key (RSpec (constant (VNum 2)))
                  [("1", RVal (VStr "one")); ("2", RVal (VStr "two"))]
                  ∅ st0 st0 (VNum 2) (VNum 2)
                  (bool_decide_unpack (NoDup ["1"; "2"]) I)
                  eq_refl eq_refl eq_refl)).
Defined.

(** ** map with an identity or a computing item function *)

Lemma liftUser_pure (f : SE (gmap string value) value) v st :
  (∀ vs, f vs = (Ret v, vs)) → liftUser f st = (Ret v, st).
Proof. intros Hf. unfold liftUser. rewrite Hf. by destruct st. Qed.

(** The item spec built from [item => call(fn, item)] for a function
    that only computes. *)
Lemma call_item_run (f : userFn) (g : value → value) sym ctx x st :
  (∀ y vs, f [y] vs = (Ret (g y), vs)) →
  run (makeSpecFn (BodyFn (callBody f)) [ensureSpec (RArr [RSpec (refSpec sym)])])
    (ctx_extend ctx sym x) st
  = (Ret (g x), st).
Proof.
  intros Hf. unfold makeSpecFn. simpl. unfold bindM, defaultEvalFn. simpl.
  unfold bindM. simpl. rewrite ctx_get_extend. by apply liftUser_pure.
Qed.

(** [map(arraySpec, item => call(fn, item))] with a function [fn] that
    only computes (it returns [g x] on the argument [x] and leaves its
    variables alone) evaluates to the array of the images of the elements
    of the array [arraySpec] evaluates to, in order; with [fn] the
    identity this is [map(arraySpec, item => item)], which evaluates to
    the array itself.  When [arraySpec] defers, the array is the awaited
    one and the result is the promise fulfilled with the images. *)
Theorem map_applies_function (arraySpec : raw) (f : userFn) (g : value → value)
    (cs : cstate) (ctx : context) (st st1 : store) (v : value)
    (xs : list value) :
  (∀ x vs, f [x] vs = (Ret (g x), vs)) →
  run (ensureSpec arraySpec) ctx st = (Ret v, st1) →
  (if mayDefer (ensureSpec arraySpec) then await v = Ret (VArr xs)
   else v = VArr xs) →
  ∃ sp,
    map_ arraySpec
      (Callable (λ item, let* s := call (Callable f) [RSpec item] in
                         retM (RSpec s))) cs
    = (Ret sp, {| nextSymbol := S (nextSymbol cs); nextMap := nextMap cs |})
    ∧ mayDefer sp = mayDefer (ensureSpec arraySpec)
    ∧ run sp ctx st
      = (Ret (if mayDefer (ensureSpec arraySpec)
              then VFulfilled (VArr (map g xs)) else VArr (map g xs)), st1).
Proof.
  intros Hf Harr Hv.
  set (sym := nextSymbol cs).
  set (itemSpec := makeSpecFn (BodyFn (callBody f))
                     [ensureSpec (RArr [RSpec (refSpec sym)])]).
  set (sp := makeSpecFn (BodyRec (mapBody sym itemSpec) None (mayDefer itemSpec))
               [ensureSpec arraySpec]).
  exists sp. split; [reflexivity|].
  assert (mayDefer itemSpec = false) as Hitem by done.
  assert (mayDefer sp = mayDefer (ensureSpec arraySpec)) as Hflag.
  { unfold sp. rewrite makeSpecFn_mayDefer. cbn [bodyOverride existsb].
    by rewrite Hitem, orb_false_r. }
  split; [exact Hflag|].
  assert (∀ s, mapBody sym itemSpec ctx [VArr xs] s = (Ret (VArr (map g xs)), s))
    as Hbody.
  { intros s. rewrite mapBody_sync by done. unfold bindM.
    rewrite (mapM_pure _ g); [done|].
    apply Forall_forall. intros x _ s'. by apply call_item_run. }
  destruct (mayDefer (ensureSpec arraySpec)) eqn:E.
  - unfold sp in *.
    rewrite (makeSpecFn_one_defer _ _ _ _ _ _ _ Hflag Harr), Hv.
    unfold then_callback. by rewrite Hbody.
  - unfold sp in *.
    rewrite (makeSpecFn_one_sync _ _ _ _ _ _ _ Hflag Harr). subst v.
    by rewrite Hbody.
Qed.

Lemma map_applies_function_witness :
  ∃ sp,
    map_ (RSpec (resolve (RVal (VArr [VNum 1; VNum 2]))))
      (Callable (λ item,
         let* s := call (Callable (λ args vs, (Ret (VArr [arg0 args]), vs)))
                     [RSpec item] in
         retM (RSpec s))) cs0
    = (Ret sp, {| nextSymbol := 1; nextMap := 0 |})
    ∧ mayDefer sp = true
    ∧ run sp ∅ st0
      = (Ret (VFulfilled (VArr [VArr [VNum 1]; VArr [VNum 2]])), st0).
Proof.
  exact (map_applies_function (RSpec (resolve (RVal (VArr [VNum 1; VNum 2]))))
           (λ args vs, (Ret (VArr [arg0 args]), vs)) (λ x, VArr [x])
           cs0 ∅ st0 st0 (VFulfilled (VArr [VNum 1; VNum 2]))
           [VNum 1; VNum 2]
           (λ _ _, eq_refl) eq_refl eq_refl).
Defined.

(** [map(arraySpec, item => item)] evaluates to the array that
    [arraySpec] evaluates to; when [arraySpec] defers, to the promise
    fulfilled with the awaited array. *)
Theorem map_identity (arraySpec : raw) (cs : cstate) (ctx : context)
    (st st1 : store) (v : value) (xs : list value) :
  run (ensureSpec arraySpec) ctx st = (Ret v, st1) →
  (if mayDefer (ensureSpec arraySpec) then await v = Ret (VArr xs)
   else v = VArr xs) →
  ∃ sp,
    map_ arraySpec idFn cs
      = (Ret sp, {| nextSymbol := S (nextSymbol cs); nextMap := nextMap cs |})
    ∧ mayDefer sp = mayDefer (ensureSpec arraySpec)
    ∧ run sp ctx st
      = (Ret (if mayDefer (ensureSpec arraySpec)
              then VFulfilled (VArr xs) else VArr xs), st1).
Proof.
  intros Harr Hv.
  set (sym := nextSymbol cs).
  set (sp := makeSpecFn (BodyRec (mapBody sym (refSpec sym)) None
                           (mayDefer (refSpec sym))) [ensureSpec arraySpec]).
  exists sp. split; [reflexivity|].
  assert (mayDefer sp = mayDefer (ensureSpec arraySpec)) as Hflag.
  { unfold sp. rewrite makeSpecFn_mayDefer. cbn [bodyOverride existsb].
    by rewrite refSpec_mayDefer, orb_false_r. }
  split; [exact Hflag|].
  assert (∀ s, mapBody sym (refSpec sym) ctx [VArr xs] s = (Ret (VArr xs), s))
    as Hbody.
  { intros s. rewrite mapBody_sync by done. unfold bindM.
    rewrite (mapM_pure _ id).
    - by rewrite map_id.
    - apply Forall_forall. intros x _ s'. rewrite refSpec_run.
      by rewrite ctx_get_extend. }
  destruct (mayDefer (ensureSpec arraySpec)) eqn:E.
  - unfold sp in *.
    rewrite (makeSpecFn_one_defer _ _ _ _ _ _ _ Hflag Harr), Hv.
    unfold then_callback. by rewrite Hbody.
  - unfold sp in *.
    rewrite (makeSpecFn_one_sync _ _ _ _ _ _ _ Hflag Harr). subst v.
    by rewrite Hbody.
Qed.

Lemma map_identity_witness :
  (∃ sp,
     map_ (RVal (VArr [VNum 1; VNum 2])) idFn cs0
       = (Ret sp, {| nextSymbol := 1; nextMap := 0 |})
     ∧ mayDefer sp = false
     ∧ run sp ∅ st0 = (Ret (VArr [VNum 1; VNum 2]), st0))
  ∧ (∃ sp,
       map_ (RSpec (resolve (RVal (VArr [VNum 1; VNum 2])))) idFn cs0
         = (Ret sp, {| nextSymbol := 1; nextMap := 0 |})
       ∧ mayDefer sp = true
       ∧ run sp ∅ st0 = (Ret (VFulfilled (VArr [VNum 1; VNum 2])), st0)).
Proof.
  split.
  - exact (map_identity (RVal (VArr [VNum 1; VNum 2])) cs0 ∅ st0 st0
             (VArr [VNum 1; VNum 2]) [VNum 1; VNum 2] eq_refl eq_refl).
  - exact (map_identity (RSpec (resolve (RVal (VArr [VNum 1; VNum 2])))) cs0
             ∅ st0 st0 (VFulfilled (VArr [VNum 1; VNum 2]))
             [VNum 1; VNum 2] eq_refl eq_refl).
Defined.

(** ** Separation in cache *)

Section CacheReuse.
Variable H : host.
Hypothesis keq_refl : ∀ k, sameValueZero H k k = true.
Hypothesis keq_sym : ∀ a b, sameValueZero H a b = sameValueZero H b a.
Hypothesis keq_trans : ∀ a b c,
  sameValueZero H a b = true → sameValueZero H b c = true →
  sameValueZero H a c = true.

Lemma map_get_set_other k k' r m :
  sameValueZero H k k' = false →
  map_get H k' (map_set H k r m) = map_get H k' m.
Proof.
  intros Hne. unfold map_get. induction m as [|p m IH]; simpl.
  - by rewrite Hne.
  - destruct (sameValueZero H p.1 k) eqn:E; simpl.
    + destruct (sameValueZero H p.1 k') eqn:E'; [|done].
      rewrite keq_sym in E. by rewrite (keq_trans _ _ _ E E') in Hne.
    + destruct (sameValueZero H p.1 k'); [done|]. apply IH.
Qed.

Lemma map_has_set_other k k' r m :
  sameValueZero H k k' = false →
  map_has H k' (map_set H k r m) = map_has H k' m.
Proof.
  intros Hne. unfold map_has. induction m as [|p m IH]; simpl.
  - by rewrite Hne.
  - destruct (sameValueZero H p.1 k) eqn:E; simpl; [done|]. by rewrite IH.
Qed.

Lemma memo_of_put_other id id' m st :
  id ≠ id' → memo_of id' (memo_put id m st) = memo_of id' st.
Proof.
  intros Hne. unfold memo_of, memo_put. simpl. by rewrite lookup_insert_ne.
Qed.

(** Storing the result for one key leaves the other keys alone: after a
    miss on [k], the table of this instance answers every key that is not
    equal to [k] as it did when the value spec returned, and the tables of
    the other instances are the ones the value spec left. *)
Theorem cache_store_keeps_other_keys (id : nat) (sym : token)
    (valueSpec : spec) (ctx : context) (st st2 : store) (k res : value) :
  map_has H k (memo_of id st) = false →
  run valueSpec (ctx_extend ctx sym k) st = (Ret res, st2) →
  ∃ st3,
    cacheBody H id sym valueSpec ctx [k] st = (Ret res, st3)
    ∧ (∀ k', sameValueZero H k k' = false →
         map_has H k' (memo_of id st3) = map_has H k' (memo_of id st2)
         ∧ map_get H k' (memo_of id st3) = map_get H k' (memo_of id st2))
    ∧ (∀ id', id ≠ id' → memo_of id' st3 = memo_of id' st2)
    ∧ vars st3 = vars st2.
Proof.
  intros Hmiss Hv.
  exists (memo_put id (map_set H k res (memo_of id st2)) st2).
  split; [by apply cacheBody_miss|]. split; [|split].
  - intros k' Hne. rewrite memo_of_put.
    by rewrite map_has_set_other, map_get_set_other.
  - intros id' Hne. by apply memo_of_put_other.
  - done.
Qed.

End CacheReuse.

Lemma cache_store_keeps_other_keys_witness :
  ∃ st3,
    cacheBody recordHost 0 0 (refSpec 0) ∅ [VNum 2]
      (memo_put 0 [(VNum 1, VStr "one")] st0) = (Ret (VNum 2), st3)
    ∧ (∀ k', value_eqb (VNum 2) k' = false →
         map_has recordHost k' (memo_of 0 st3)
         = map_has recordHost k' [(VNum 1, VStr "one")]
         ∧ map_get recordHost k' (memo_of 0 st3)
           = map_get recordHost k' [(VNum 1, VStr "one")])
    ∧ (∀ id', 0 ≠ id' →
         memo_of id' st3 = memo_of id' (memo_put 0 [(VNum 1, VStr "one")] st0))
    ∧ vars st3 = ∅.
Proof.
  exact (cache_store_keeps_other_keys recordHost value_eqb_refl value_eqb_sym
           value_eqb_trans 0 0 (refSpec 0) ∅
           (memo_put 0 [(VNum 1, VStr "one")] st0)
           (memo_put 0 [(VNum 1, VStr "one")] st0)
           (VNum 2) (VNum 2) eq_refl eq_refl).
Defined.

(** ** Reuse in cache *)


